(** * The live-session WebSocket client and its event emitter

    A shallow embedding of [js/utils/event-emitter.js] (class
    [EventEmitter]) and of [js/ws/client.js] as saved in
    [.history/js/ws/client_20250406060402.js] (class
    [GeminiWebsocketClient]), followed by the properties of the protocol
    client: handshake gating, inbound routing, close-code classification
    and listener dispatch.

    JavaScript values are a small tree type; a method is a function in a
    state-and-exception monad over the client object and its environment
    (the sockets and promises it created, the browser's local storage),
    which also records what the method does to the outside: console
    lines, emitted events, frames handed to a socket.

    The client is followed twice.  [Client] records a call of [emit]
    and goes on: that is the client whose listeners come back from
    every call and leave it alone.  [Listening] runs the inherited
    [emit] on the listeners the page has registered, so that a
    listener's exception leaves the handler that published the event;
    the two agree when every listener is calm, and the properties that
    hang on what comes after an [emit] are stated over [Listening]. *)

From stdpp Require Import gmap strings list pretty.

Set Warnings "-register-all".

Local Open Scope string_scope.
Local Open Scope list_scope.

(* ===================================================================== *)
(** * Part I: definitions *)
(* ===================================================================== *)

(** ** JavaScript values *)

Module Js.

(** The values the client handles: what [JSON.parse] yields, plus
    [undefined].  [JNum] holds the integer-valued numbers below 10^21 in
    magnitude, which a template literal prints with all their digits
    (from 10^21 on JavaScript prints an exponent); the client only ever
    tests a number for truthiness.  [JObj] lists the own properties of a
    plain object, keys distinct. *)
Inductive Val : Type :=
| JUndefined
| JNull
| JBool (b : bool)
| JNum (n : Z)
| JStr (s : string)
| JArr (items : list Val)
| JObj (props : list (string * Val)).

(** What a [throw] carries, and what a promise is rejected with. *)
Inductive Exn : Type :=
| JsError (message : string)        (* new Error(message) *)
| TypeError (message : string)      (* raised by the runtime *)
| DOMException (message : string)   (* raised by a browser constructor *)
| ErrorEvent (reason : option string). (* the Event object of a socket's 'error' *)

Inductive Result (A : Type) : Type :=
| Return (a : A)
| Throw (e : Exn).
Arguments Return {A} a.
Arguments Throw {A} e.

Definition is_empty (s : string) : bool :=
  match s with EmptyString => true | String _ _ => false end.

(** ToBoolean. *)
Definition truthy (v : Val) : bool :=
  match v with
  | JUndefined | JNull => false
  | JBool b => b
  | JNum n => negb (n =? 0)%Z
  | JStr s => negb (is_empty s)
  | JArr _ | JObj _ => true
  end.

Fixpoint assoc (k : string) (ps : list (string * Val)) : Val :=
  match ps with
  | [] => JUndefined
  | (k', v) :: ps' => if String.eqb k k' then v else assoc k ps'
  end.

(** [v.k] for the property names the client reads ([toolCall], [text],
    [inlineData], [id], ...): none of them is defined on a primitive's
    or an array's prototype, so only a plain object can answer with
    something else than [undefined]; reading a property of [null] or
    [undefined] throws. *)
Definition get (v : Val) (k : string) : Result Val :=
  match v with
  | JUndefined =>
      Throw (TypeError ("Cannot read properties of undefined (reading '" +:+ k +:+ "')"))
  | JNull =>
      Throw (TypeError ("Cannot read properties of null (reading '" +:+ k +:+ "')"))
  | JObj ps => Return (assoc k ps)
  | JBool _ | JNum _ | JStr _ | JArr _ => Return JUndefined
  end.

Fixpoint join (sep : string) (ss : list string) : string :=
  match ss with
  | [] => EmptyString
  | [s] => s
  | s :: ss' => s +:+ sep +:+ join sep ss'
  end.

(** ToString, as a template literal applies it (numbers: see [JNum]). *)
Fixpoint to_string (v : Val) : string :=
  match v with
  | JUndefined => "undefined"
  | JNull => "null"
  | JBool true => "true"
  | JBool false => "false"
  | JNum n => pretty n
  | JStr s => s
  | JObj _ => "[object Object]"
  | JArr items =>
      join ","
        ((fix elements (vs : list Val) : list string :=
            match vs with
            | [] => []
            | JUndefined :: vs' | JNull :: vs' => EmptyString :: elements vs'
            | v' :: vs' => to_string v' :: elements vs'
            end) items)
  end.

Definition exn_to_string (e : Exn) : string :=
  match e with
  | JsError m => "Error: " +:+ m
  | TypeError m => "TypeError: " +:+ m
  | DOMException m => "Error: " +:+ m
  | ErrorEvent _ => "[object Event]"
  end.

(** [s.startsWith(p)] *)
Definition startsWith (s p : string) : bool := String.prefix p s.

(** ASCII case folding, which is all the [i] flag does to a pattern of
    ASCII letters: a code unit above 127 never folds onto one below. *)
Definition lower (c : Ascii.ascii) : Ascii.ascii :=
  let n := Ascii.N_of_ascii c in
  if ((65 <=? n)%N && (n <=? 90)%N) then Ascii.ascii_of_N (n + 32) else c.

Fixpoint prefix_ci (p s : string) : bool :=
  match p, s with
  | EmptyString, _ => true
  | String a p', String b s' => Ascii.eqb (lower a) (lower b) && prefix_ci p' s'
  | String _ _, EmptyString => false
  end.

(** [/p/i.test(s)] for a literal pattern [p]. *)
Fixpoint contains_ci (p s : string) : bool :=
  prefix_ci p s ||
  match s with
  | EmptyString => false
  | String _ s' => contains_ci p s'
  end.

(** Array.prototype.filter and map with a callback that may throw: the
    first exception aborts the traversal. *)
Fixpoint filterR {A} (f : A -> Result bool) (l : list A) : Result (list A) :=
  match l with
  | [] => Return []
  | x :: l' =>
      match f x with
      | Throw e => Throw e
      | Return b =>
          match filterR f l' with
          | Throw e => Throw e
          | Return r => Return (if b then x :: r else r)
          end
      end
  end.

Fixpoint mapR {A B} (f : A -> Result B) (l : list A) : Result (list B) :=
  match l with
  | [] => Return []
  | x :: l' =>
      match f x with
      | Throw e => Throw e
      | Return y =>
          match mapR f l' with
          | Throw e => Throw e
          | Return r => Return (y :: r)
          end
      end
  end.

End Js.

Import Js.

(** ** js/utils/event-emitter.js *)

Module EventEmitter.
Section Emitter.

(** [A] is what [emit] passes on to the listeners (its rest
    arguments); [W] is whatever the listeners act on.  A listener is a
    function object: [ref] is its identity (what [!==] compares) and
    [call] its body, which may change [W] and may throw. *)
Context {A W : Type}.

Record Listener : Type := mkListener {
  ref : nat;
  call : A -> W -> W * option Exn
}.

(** [this._events]: a plain object used as a map from event name to an
    array of listeners.  Being created by [{}], it also answers for the
    names its prototype defines. *)
Definition object_prototype_keys : list string :=
  [ "constructor"; "__defineGetter__"; "__defineSetter__"; "hasOwnProperty";
    "__lookupGetter__"; "__lookupSetter__"; "isPrototypeOf";
    "propertyIsEnumerable"; "toString"; "valueOf"; "__proto__";
    "toLocaleString" ].

Inductive Slot : Type :=
| Absent                          (* undefined *)
| Inherited                       (* a member of Object.prototype: truthy, not an array *)
| Own (ls : list Listener).

(** [this._events[event]] *)
Definition read (_events : gmap string (list Listener)) (event : string) : Slot :=
  match _events !! event with
  | Some ls => Own ls
  | None => if bool_decide (event ∈ object_prototype_keys) then Inherited else Absent
  end.

(** constructor() *)
Definition new : gmap string (list Listener) := ∅.

(** on(event, listener) *)
Definition on (_events : gmap string (list Listener)) (event : string) (listener : Listener)
  : Result (gmap string (list Listener)) :=
  match read _events event with
  | Absent => Return (<[event := [listener]]> _events)
  | Own ls => Return (<[event := ls ++ [listener]]> _events)
  | Inherited => Throw (TypeError "this._events[event].push is not a function")
  end.

(** [ls.forEach(listener => listener.apply(this, args))]: the world the
    listeners leave, the listeners entered (in order), and the
    exception that ended the traversal, if any. *)
Fixpoint forEach (ls : list Listener) (args : A) (w : W) : W * list nat * option Exn :=
  match ls with
  | [] => (w, [], None)
  | l :: ls' =>
      match call l args w with
      | (w1, Some e) => (w1, [ref l], Some e)
      | (w1, None) =>
          let '(w2, entered, r) := forEach ls' args w1 in
          (w2, ref l :: entered, r)
      end
  end.

(** emit(event, ...args) *)
Definition emit (_events : gmap string (list Listener)) (event : string) (args : A) (w : W)
  : W * list nat * Result bool :=
  match read _events event with
  | Absent => (w, [], Return false)
  | Inherited => (w, [], Throw (TypeError "this._events[event].forEach is not a function"))
  | Own ls =>
      match forEach ls args w with
      | (w', entered, Some e) => (w', entered, Throw e)
      | (w', entered, None) => (w', entered, Return true)
      end
  end.

(** removeListener(event, listener) *)
Definition removeListener (_events : gmap string (list Listener)) (event : string)
    (listener : Listener) : Result (gmap string (list Listener)) :=
  match read _events event with
  | Absent => Return _events
  | Inherited => Throw (TypeError "this._events[event].filter is not a function")
  | Own ls =>
      Return (<[event := List.filter (fun l => negb (ref l =? ref listener)%nat) ls]> _events)
  end.

(** Registering a run of listeners for one event, in order. *)
Fixpoint on_all (_events : gmap string (list Listener)) (event : string)
    (ls : list Listener) : Result (gmap string (list Listener)) :=
  match ls with
  | [] => Return _events
  | l :: ls' =>
      match on _events event l with
      | Throw e => Throw e
      | Return ev' => on_all ev' event ls'
      end
  end.

(** A listener that comes back from every call with these arguments,
    and one that throws [e] from every such call. *)
Definition returns (args : A) (l : Listener) : Prop :=
  ∀ w, (call l args w).2 = None.
Definition throws (args : A) (l : Listener) (e : Exn) : Prop :=
  ∀ w, (call l args w).2 = Some e.

(** What the listener-isolation reading of [emit] promises: every
    listener registered for the event is entered. *)
Definition enters_all (_events : gmap string (list Listener)) (event : string)
    (args : A) (w : W) : Prop :=
  ∀ ls l, _events !! event = Some ls → l ∈ ls → ref l ∈ (emit _events event args w).1.2.

(** The listeners an event has, in the order they were registered in. *)
Definition registered (_events : gmap string (list Listener)) (event : string)
  : list Listener :=
  default [] (_events !! event).

(** Calling listeners in turn: the first of [ls] on [w], each of the
    others on the world the one before it left, whether it came back or
    threw.  This is the order the specification asks of [emit]. *)
Definition in_turn (ls : list Listener) (args : A) (w : W) : W :=
  fold_left (fun w l => (call l args w).1) ls w.

End Emitter.
Arguments Listener : clear implicits.
Arguments Slot : clear implicits.
End EventEmitter.

(** ** js/ws/client.js *)

Module Client.

(** *** The environment *)

Definition ArrayBuffer : Type := list Byte.byte.

(** What the client calls and this repository's sources under study do
    not define: the browser's [URL] and [WebSocket] constructors, and
    [base64ToArrayBuffer] of [js/utils/utils.js].
    - [wsUrl url key] is [new URL(url)] with [searchParams.set('key',
      key)], printed by [toString()]; [None] when the constructor
      throws.
    - [webSocketAccepts u] tells whether [new WebSocket(u)] returns a
      socket (it throws otherwise).
    - [base64ToArrayBuffer] may throw. *)
Class Platform : Type := {
  wsUrl : string -> string -> option string;
  webSocketAccepts : string -> bool;
  base64ToArrayBuffer : Val -> Result ArrayBuffer
}.

Inductive ReadyState : Type := CONNECTING | OPEN | CLOSING | CLOSED.

(** [ws.readyState] as a number. *)
Definition readyState_code (s : ReadyState) : Z :=
  match s with CONNECTING => 0 | OPEN => 1 | CLOSING => 2 | CLOSED => 3 end%Z.

Definition is_open (s : ReadyState) : bool :=
  match s with OPEN => true | _ => false end.

Inductive PromiseState : Type :=
| Pending
| Fulfilled
| Rejected (reason : Exn).

(** A socket made by [connect]: its four handlers close over the
    socket itself and over [resolve] and [reject] of the promise made
    with it, [settles]. *)
Record Socket : Type := mkSocket {
  sock_url : string;
  readyState : ReadyState;
  settles : nat
}.

(** The fields of a [GeminiWebsocketClient]; [ws] and
    [connectionPromise] are references into the tables below, [None]
    being [null]. *)
Record Client : Type := mkClient {
  name : string;
  url : string;
  ws : option nat;
  config : Val;
  isConnecting : bool;
  connectionPromise : option nat;
  _isSetupComplete : bool
}.

Record World : Type := mkWorld {
  this : Client;
  sockets : list Socket;
  promises : list PromiseState;
  deepgramApiKey : option string   (* localStorage.getItem('deepgramApiKey') *)
}.

Definition set_ws (v : option nat) (c : Client) : Client :=
  mkClient (name c) (url c) v (config c) (isConnecting c) (connectionPromise c)
           (_isSetupComplete c).
Definition set_isConnecting (v : bool) (c : Client) : Client :=
  mkClient (name c) (url c) (ws c) (config c) v (connectionPromise c)
           (_isSetupComplete c).
Definition set_connectionPromise (v : option nat) (c : Client) : Client :=
  mkClient (name c) (url c) (ws c) (config c) (isConnecting c) v
           (_isSetupComplete c).
Definition set_isSetupComplete (v : bool) (c : Client) : Client :=
  mkClient (name c) (url c) (ws c) (config c) (isConnecting c) (connectionPromise c) v.

Definition set_this (c : Client) (w : World) : World :=
  mkWorld c (sockets w) (promises w) (deepgramApiKey w).
Definition set_sockets (s : list Socket) (w : World) : World :=
  mkWorld (this w) s (promises w) (deepgramApiKey w).
Definition set_promises (p : list PromiseState) (w : World) : World :=
  mkWorld (this w) (sockets w) p (deepgramApiKey w).

(** *** What a method does to the outside *)

Inductive Level : Type := Debug | Info | Warn | Error.

Inductive Arg : Type :=
| AVal (v : Val)
| ABuf (b : ArrayBuffer).

(** [Console] keeps the message, not the objects printed after it;
    [Send sid json] is [ws.send(JSON.stringify(json))] on socket [sid];
    [Close sid] is [ws.close()]; [Emit] is a call of the inherited
    [emit], recorded when the call is made, whatever the listeners do
    with it. *)
Inductive Effect : Type :=
| Console (l : Level) (message : string)
| Emit (event : string) (args : list Arg)
| Send (sid : nat) (json : Val)
| Close (sid : nat).

(** *** The monad of methods *)

Definition M (A : Type) : Type := World -> World * list Effect * Result A.

#[export] Instance M_ret : MRet M := fun A a w => (w, [], Return a).

#[export] Instance M_bind : MBind M := fun A B k m w =>
  match m w with
  | (w1, t1, Throw e) => (w1, t1, Throw e)
  | (w1, t1, Return a) =>
      match k a w1 with
      | (w2, t2, r) => (w2, t1 ++ t2, r)
      end
  end.

Definition throw {A} (e : Exn) : M A := fun w => (w, [], Throw e).

Definition lift {A} (r : Result A) : M A := fun w => (w, [], r).

(** try { m } catch (e) { h e } *)
Definition try_catch {A} (m : M A) (h : Exn -> M A) : M A := fun w =>
  match m w with
  | (w1, t1, Return a) => (w1, t1, Return a)
  | (w1, t1, Throw e) =>
      match h e w1 with
      | (w2, t2, r) => (w2, t1 ++ t2, r)
      end
  end.

(** A call of an async method whose promise nobody keeps: a rejection
    goes unhandled. *)
Definition detached {A} (m : M A) : M unit := fun w =>
  match m w with
  | (w1, t1, _) => (w1, t1, Return tt)
  end.

Definition tell (e : Effect) : M unit := fun w => (w, [e], Return tt).
Definition console (l : Level) (message : string) : M unit := tell (Console l message).

(** [this.emit(event, ...args)] on a client whose listeners all come
    back from the call and leave the client alone: the call is recorded
    and the method goes on.  [Listening.emit] below is the inherited
    method itself, with the listeners of the page. *)
Definition emit (event : string) (args : list Arg) : M unit := tell (Emit event args).

Definition get_this : M Client := fun w => (w, [], Return (this w)).
Definition modify_this (f : Client -> Client) : M unit :=
  fun w => (set_this (f (this w)) w, [], Return tt).
Definition prop (v : Val) (k : string) : M Val := lift (get v k).

Definition when (b : bool) (m : M unit) : M unit := if b then m else mret tt.

Fixpoint forEach {A} (l : list A) (f : A -> M unit) : M unit :=
  match l with
  | [] => mret tt
  | x :: l' => f x ;; forEach l' f
  end.

(** *** Sockets and promises *)

Definition set_readyState (s : ReadyState) (k : Socket) : Socket :=
  mkSocket (sock_url k) s (settles k).

(** [this.ws?.readyState] *)
Definition ws_readyState : M (option ReadyState) := fun w =>
  (w, [], Return (sid ← ws (this w); readyState <$> sockets w !! sid)).

(** [ws.close()]: starts the closing handshake unless the socket is
    already closing or closed. *)
Definition ws_close (sid : nat) : M unit := fun w =>
  (set_sockets
     (alter (fun k => match readyState k with
                      | CONNECTING | OPEN => set_readyState CLOSING k
                      | CLOSING | CLOSED => k
                      end) sid (sockets w)) w,
   [Close sid], Return tt).

(** The browser changes [readyState] before it dispatches the event. *)
Definition browser_sets (sid : nat) (s : ReadyState) : M unit := fun w =>
  (set_sockets (alter (set_readyState s) sid (sockets w)) w, [], Return tt).

(** [resolve()] and [reject(e)] of promise [pid]: no effect once the
    promise is settled. *)
Definition settle (pid : nat) (s : PromiseState) : M unit := fun w =>
  match promises w !! pid with
  | Some Pending => (set_promises (<[pid := s]> (promises w)) w, [], Return tt)
  | _ => (w, [], Return tt)
  end.

(** What an async method's caller holds for [return p]: a promise that
    follows [p], or one already settled. *)
Inductive Returned : Type :=
| Follows (pid : nat)
| Settled (s : PromiseState).

Definition returned_promise (p : option nat) : Returned :=
  match p with
  | Some pid => Follows pid
  | None => Settled Fulfilled      (* return null *)
  end.

Definition state_of (w : World) (r : Returned) : PromiseState :=
  match r with
  | Follows pid => default Pending (promises w !! pid)
  | Settled s => s
  end.

Definition dquote : string := String (Ascii.ascii_of_nat 34) EmptyString.

Section Methods.

Context `{Platform}.

(** *** constructor(name, url, config) *)
Definition new (name url : string) (config : Val) : Client :=
  {| name := if is_empty name then "WebSocketClient" else name;
     url := url;
     ws := None;
     config := config;
     isConnecting := false;
     connectionPromise := None;
     _isSetupComplete := false |}.

(** *** sendJSON(json) *)

Definition ws_null_message (json : Val) (name : string) : string :=
  "Failed to send " +:+ to_string json +:+ " to " +:+ name +:+
  ":TypeError: Cannot read properties of null (reading 'send')".

Definition ws_not_open_message (json : Val) (name : string) : string :=
  "Failed to send " +:+ to_string json +:+ " to " +:+ name +:+
  ":WebSocket connection is not open".

Definition send_failed_message (json : Val) (name : string) (e : Exn) : string :=
  "Failed to send " +:+ to_string json +:+ " to " +:+ name +:+ ":" +:+ exn_to_string e.

Definition sendJSON (json : Val) : M unit :=
  c ← get_this;
  if negb (_isSetupComplete c) then
    console Warn "Attempted to send JSON before setup completed."
  else
    try_catch
      (match ws c with
       | None =>
           console Error ("[" +:+ name c +:+ "] WebSocket is null. Cannot send message:") ;;
           throw (JsError (ws_null_message json (name c)))
       | Some sid =>
           st ← ws_readyState;
           let st := default CLOSED st in
           if negb (is_open st) then
             console Error ("[" +:+ name c +:+ "] WebSocket is not open (state: " +:+
                            pretty (readyState_code st) +:+ "). Cannot send message:") ;;
             throw (JsError (ws_not_open_message json (name c)))
           else
             tell (Send sid json) ;;
             console Debug ("JSON Object was sent to " +:+ name c +:+ ":")
       end)
      (fun e =>
         console Error ("Error sending message: " +:+ exn_to_string e) ;;
         throw (JsError (send_failed_message json (name c) e))).

(** *** disconnect() *)
Definition disconnect : M unit :=
  c ← get_this;
  match ws c with
  | Some sid =>
      ws_close sid ;;
      modify_this (set_ws None) ;;
      modify_this (set_isConnecting false) ;;
      modify_this (set_connectionPromise None) ;;
      console Info (name c +:+ " successfully disconnected from websocket")
  | None => mret tt
  end.

(** *** receive(blob), from the value [blobToJSON(blob)] resolves to *)

(** p.inlineData && p.inlineData.mimeType.startsWith('audio/pcm') *)
Definition is_audio_part (p : Val) : Result bool :=
  match get p "inlineData" with
  | Throw e => Throw e
  | Return inlineData =>
      if truthy inlineData then
        match get inlineData "mimeType" with
        | Throw e => Throw e
        | Return (JStr mimeType) => Return (startsWith mimeType "audio/pcm")
        | Return JUndefined =>
            Throw (TypeError "Cannot read properties of undefined (reading 'startsWith')")
        | Return JNull =>
            Throw (TypeError "Cannot read properties of null (reading 'startsWith')")
        | Return _ =>
            Throw (TypeError "p.inlineData.mimeType.startsWith is not a function")
        end
      else Return false
  end.

(** (p) => p.text *)
Definition has_text (p : Val) : Result bool :=
  match get p "text" with
  | Throw e => Throw e
  | Return text => Return (truthy text)
  end.

(** (p) => p.inlineData?.data *)
Definition inline_data (p : Val) : Result Val :=
  match get p "inlineData" with
  | Throw e => Throw e
  | Return JUndefined | Return JNull => Return JUndefined
  | Return inlineData => get inlineData "data"
  end.

(** The elements of an array each are an object of their own: an
    element is held with its position, and [includes] on a selection of
    objects of that array compares positions. *)
Definition elements (parts : Val) : Result (list (nat * Val)) :=
  match parts with
  | JArr items => Return (imap (fun i p => (i, p)) items)
  | JUndefined => Throw (TypeError "Cannot read properties of undefined (reading 'filter')")
  | JNull => Throw (TypeError "Cannot read properties of null (reading 'filter')")
  | _ => Throw (TypeError "parts.filter is not a function")
  end.

Definition includes (selection : list (nat * Val)) (p : nat * Val) : bool :=
  existsb (fun q => (q.1 =? p.1)%nat) selection.

Definition receive_modelTurn (c : Client) (modelTurn : Val) : M unit :=
  parts ← prop modelTurn "parts";
  parts ← lift (elements parts);
  textParts ← lift (filterR (fun p => has_text p.2) parts);
  forEach textParts (fun p =>
    text ← prop p.2 "text";
    emit "text" [AVal text]) ;;
  audioParts ← lift (filterR (fun p => is_audio_part p.2) parts);
  base64s ← lift (mapR (fun p => inline_data p.2) audioParts);
  let otherParts := List.filter (fun p => negb (includes audioParts p)) parts in
  forEach base64s (fun b64 =>
    when (truthy b64)
      (data ← lift (base64ToArrayBuffer b64);
       emit "audio" [ABuf data])) ;;
  when (negb (length otherParts =? 0)%nat)
    (emit "content"
       [AVal (JObj [("modelTurn", JObj [("parts", JArr (otherParts.*2))])])] ;;
     console Debug (name c +:+ " sent:")).

Definition receive (response : Val) : M unit :=
  c ← get_this;
  toolCall ← prop response "toolCall";
  if truthy toolCall then
    console Debug (name c +:+ " received tool call") ;;
    emit "tool_call" [AVal toolCall]
  else
  setupComplete ← prop response "setupComplete";
  if truthy setupComplete then
    modify_this (set_isSetupComplete true) ;;
    emit "setupComplete" []
  else
  toolCallCancellation ← prop response "toolCallCancellation";
  if truthy toolCallCancellation then
    console Debug (name c +:+ " received tool call cancellation") ;;
    emit "tool_call_cancellation" [AVal toolCallCancellation]
  else
  serverContent ← prop response "serverContent";
  if truthy serverContent then
    interrupted ← prop serverContent "interrupted";
    if truthy interrupted then
      console Debug (name c +:+ " is interrupted") ;;
      emit "interrupted" []
    else
      turnComplete ← prop serverContent "turnComplete";
      when (truthy turnComplete)
        (console Debug (name c +:+ " has completed its turn") ;;
         emit "turn_complete" []) ;;
      modelTurn ← prop serverContent "modelTurn";
      when (truthy modelTurn) (receive_modelTurn c modelTurn)
  else
    console Debug (name c +:+ " received unmatched message:").

(** *** sendAudio(base64audio) *)
Definition sendAudio (base64audio : string) : M unit :=
  c ← get_this;
  if negb (_isSetupComplete c) then
    console Warn "Attempted to send audio before setup completed."
  else
    sendJSON
      (JObj [("realtimeInput",
              JObj [("mediaChunks",
                     JArr [JObj [("mimeType", JStr "audio/pcm");
                                 ("data", JStr base64audio)]])])]) ;;
    console Debug ("Sending audio chunk to " +:+ name c +:+ ".").

(** *** sendImage(base64image) *)

(** Math.round(base64image.length/1024), for a base64 string: its
    characters are ASCII, one byte and one code unit each, so that the
    length of the string here is its [length] there. *)
Definition size_in_KB (base64image : string) : Z :=
  ((Z.of_nat (String.length base64image) + 512) / 1024)%Z.

Definition sendImage (base64image : string) : M unit :=
  c ← get_this;
  if negb (_isSetupComplete c) then
    console Warn "Attempted to send image before setup completed."
  else
    sendJSON
      (JObj [("realtimeInput",
              JObj [("mediaChunks",
                     JArr [JObj [("mimeType", JStr "image/jpeg");
                                 ("data", JStr base64image)]])])]) ;;
    console Debug ("Image with a size of " +:+ pretty (size_in_KB base64image) +:+
                   " KB was sent to the " +:+ name c +:+ ".").

(** *** sendText(text, endOfTurn = true) *)
Definition sendText (text : string) (endOfTurn : option bool) : M unit :=
  let endOfTurn := default true endOfTurn in
  c ← get_this;
  if negb (_isSetupComplete c) then
    console Warn "Attempted to send text before setup completed."
  else
    sendJSON
      (JObj [("clientContent",
              JObj [("turns", JArr [JObj [("role", JStr "user");
                                          ("parts", JObj [("text", JStr text)])]]);
                    ("turnComplete", JBool endOfTurn)])]) ;;
    console Debug ("Text sent to " +:+ name c +:+ ":").

(** *** sendToolResponse(toolResponse) *)

Definition function_response (kind : string) (value id : Val) : Val :=
  JObj [("response", JObj [(kind, value)]); ("id", id)].

Definition tool_envelope (result : list Val) : Val :=
  JObj [("toolResponse", JObj [("functionResponses", JArr result)])].

Definition no_id_message : string := "Tool response must include an id".
Definition no_output_message : string :=
  "Tool response must include an output when no error is provided".

Definition sendToolResponse (toolResponse : Val) : M unit :=
  c ← get_this;
  if negb (_isSetupComplete c) then
    console Warn "Attempted to send tool response before setup completed."
  else if negb (truthy toolResponse) then
    throw (JsError no_id_message)
  else
    id ← prop toolResponse "id";
    if negb (truthy id) then
      throw (JsError no_id_message)
    else
      output ← prop toolResponse "output";
      error ← prop toolResponse "error";
      result ←
        (if truthy error then mret [function_response "error" error id]
         else match output with
              | JUndefined => throw (JsError no_output_message)
              | _ => mret [function_response "output" output id]
              end);
      sendJSON (tool_envelope result) ;;
      console Debug ("Tool response sent to " +:+ name c +:+ ":").

(** *** connect() *)

Definition no_key_message : string := "No Deepgram API key provided".

(** The executor of [new Promise(...)]: makes the socket and hangs
    the four handlers on it.  An exception of the [WebSocket]
    constructor rejects the promise being made. *)
Definition new_connection (u : string) : M nat := fun w =>
  let pid := length (promises w) in
  if webSocketAccepts u then
    (set_sockets (sockets w ++ [mkSocket u CONNECTING pid])
       (set_promises (promises w ++ [Pending]) w),
     [], Return pid)
  else
    (set_promises
       (promises w ++ [Rejected (DOMException ("The URL '" +:+ u +:+ "' is invalid."))]) w,
     [], Return pid).

(** localStorage.getItem('deepgramApiKey') *)
Definition getItem_deepgramApiKey : M (option string) :=
  fun w => (w, [], Return (deepgramApiKey w)).

Definition connect : M Returned :=
  c ← get_this;
  st ← ws_readyState;
  if match st with Some OPEN => true | _ => false end then
    mret (returned_promise (connectionPromise c))
  else if isConnecting c then
    mret (returned_promise (connectionPromise c))
  else
    apiKey ← getItem_deepgramApiKey;
    match apiKey with
    | None | Some EmptyString =>
        console Error no_key_message ;;
        emit "error" [AVal (JStr no_key_message)] ;;
        mret (Settled (Rejected (JsError no_key_message)))
    | Some apiKey =>
        match wsUrl (url c) apiKey with
        | None =>
            console Error "Invalid WebSocket URL:" ;;
            emit "error" [AVal (JStr "Invalid WebSocket URL")] ;;
            mret (Settled (Rejected (TypeError "Invalid URL")))
        | Some wsUrl =>
            console Info "🔗 Establishing WebSocket connection..." ;;
            modify_this (set_isConnecting true) ;;
            pid ← new_connection wsUrl;
            modify_this (set_connectionPromise (Some pid)) ;;
            mret (Follows pid)
        end
    end.

(** *** The handlers [connect] hangs on socket [sid] *)

Definition resolve (sid : nat) : M unit := fun w =>
  match sockets w !! sid with
  | Some k => settle (settles k) Fulfilled w
  | None => (w, [], Return tt)
  end.

Definition reject (sid : nat) (e : Exn) : M unit := fun w =>
  match sockets w !! sid with
  | Some k => settle (settles k) (Rejected e) w
  | None => (w, [], Return tt)
  end.

Definition url_of (sid : nat) : M string := fun w =>
  (w, [], Return (default EmptyString (sock_url <$> sockets w !! sid))).

(** ws.addEventListener('open', ...) *)
Definition on_open (sid : nat) : M unit :=
  browser_sets sid OPEN ;;
  console Info "🔗 Successfully connected to websocket" ;;
  modify_this (set_ws (Some sid)) ;;
  modify_this (set_isConnecting false) ;;
  c ← get_this;
  detached (sendJSON (JObj [("setup", config c)])) ;;
  console Debug "Setup message with the following configuration was sent:" ;;
  resolve sid.

(** ws.addEventListener('error', ...); the browser fires it on a
    connection it has failed, which is closed by then. *)
Definition on_error (sid : nat) (reason : option string) : M unit :=
  browser_sets sid CLOSED ;;
  disconnect ;;
  wsUrl ← url_of sid;
  let shown := match reason with
               | None | Some EmptyString => "Unknown"
               | Some r => r
               end in
  let message := "Could not connect to " +:+ dquote +:+ wsUrl +:+ dquote +:+
                 ". Reason: " +:+ shown in
  console Error message ;;
  emit "error" [AVal (JStr message)] ;;
  reject sid (ErrorEvent reason).

(** What a 'message' event carries: a Blob, given by what [blobToJSON]
    makes of it ([None] when it rejects), or something else. *)
Inductive MessageData : Type :=
| Blob (json : option Val)
| NotBlob.

(** ws.addEventListener('message', ...) *)
Definition on_message (data : MessageData) : M unit :=
  match data with
  | Blob (Some response) => detached (receive response)
  | Blob None => mret tt
  | NotBlob => console Error "Non-blob message received"
  end.

Record CloseEvent : Type := mkCloseEvent {
  code : Z;
  reason : string;
  wasClean : bool
}.

Definition auth_codes : list Z := [4001; 4003; 1008]%Z.

(** /auth|token|key/i.test(reason) *)
Definition auth_pattern (reason : string) : bool :=
  contains_ci "auth" reason || contains_ci "token" reason || contains_ci "key" reason.

Definition authFailure (event : CloseEvent) : bool :=
  bool_decide (code event ∈ auth_codes) ||
  (negb (is_empty (reason event)) && auth_pattern (reason event)).

Definition auth_message (event : CloseEvent) : string :=
  "Authentication failed. Code: " +:+ pretty (code event) +:+
  ", Reason: " +:+ reason event.

Definition closed_message (event : CloseEvent) : string :=
  "🔗 WebSocket connection closed. Code: " +:+ pretty (code event) +:+
  ", Reason: " +:+ dquote +:+ reason event +:+ dquote +:+
  ", Clean: " +:+ (if wasClean event then "true" else "false").

Definition closed_during_connect_message (event : CloseEvent) : string :=
  "WebSocket closed during connection attempt. Code: " +:+ pretty (code event) +:+
  ", Reason: " +:+ reason event.

(** ws.addEventListener('close', ...) *)
Definition on_close (sid : nat) (event : CloseEvent) : M unit :=
  browser_sets sid CLOSED ;;
  console Warn (closed_message event) ;;
  disconnect ;;
  (if authFailure event then
     console Error (auth_message event) ;;
     emit "auth_failed" [AVal (JStr (auth_message event))] ;;
     emit "error" [AVal (JStr (auth_message event))]
   else
     emit "disconnected"
       [AVal (JObj [("code", JNum (code event));
                    ("reason", JStr (reason event));
                    ("wasClean", JBool (wasClean event))])]) ;;
  c ← get_this;
  when (isConnecting c)
    (modify_this (set_isConnecting false) ;;
     reject sid (JsError (closed_during_connect_message event))).

(** *** Everything that can happen to a client *)

Inductive Action : Type :=
| Connect
| Disconnect
| SendAudio (base64audio : string)
| SendImage (base64image : string)
| SendText (text : string) (endOfTurn : option bool)
| SendToolResponse (toolResponse : Val)
| SendJSON (json : Val)
| WsOpen (sid : nat)
| WsError (sid : nat) (reason : option string)
| WsMessage (sid : nat) (data : MessageData)
| WsClose (sid : nat) (event : CloseEvent).

(** An event of a socket that was never made does not happen. *)
Definition dispatched (sid : nat) (handler : M unit) : M unit := fun w =>
  match sockets w !! sid with
  | Some _ => handler w
  | None => (w, [], Return tt)
  end.

Definition perform (a : Action) : M unit :=
  match a with
  | Connect => connect ;; mret tt
  | Disconnect => disconnect
  | SendAudio b => sendAudio b
  | SendImage b => sendImage b
  | SendText t e => sendText t e
  | SendToolResponse r => sendToolResponse r
  | SendJSON j => sendJSON j
  | WsOpen sid => dispatched sid (on_open sid)
  | WsError sid r => dispatched sid (on_error sid r)
  | WsMessage sid d => dispatched sid (on_message d)
  | WsClose sid e => dispatched sid (on_close sid e)
  end.

(** One action, then several: the world they leave, what they did to
    the outside, and how each call ended. *)
Fixpoint run (actions : list Action) (w : World)
  : World * list Effect * list (Result unit) :=
  match actions with
  | [] => (w, [], [])
  | a :: actions' =>
      match perform a w with
      | (w1, t1, r) =>
          match run actions' w1 with
          | (w2, t2, rs) => (w2, t1 ++ t2, r :: rs)
          end
      end
  end.

(** A page that has just constructed its client. *)
Definition fresh (name url : string) (config : Val) (apiKey : option string) : World :=
  {| this := new name url config; sockets := []; promises := [];
     deepgramApiKey := apiKey |}.

Definition sent (t : list Effect) : list (nat * Val) :=
  omap (fun e => match e with Send sid json => Some (sid, json) | _ => None end) t.

Definition emitted (t : list Effect) : list (string * list Arg) :=
  omap (fun e => match e with Emit event args => Some (event, args) | _ => None end) t.

Definition events (t : list Effect) : list string := (emitted t).*1.

(** *** Vocabulary of the properties *)

Definition world_of {A} (x : World * list Effect * Result A) : World := x.1.1.
Definition effects_of {A} (x : World * list Effect * Result A) : list Effect := x.1.2.
Definition result_of {A} (x : World * list Effect * Result A) : Result A := x.2.

(** The handshake-complete flag. *)
Definition flag (w : World) : bool := _isSetupComplete (this w).

(** The frames [receive] takes for a SetupComplete: it tests
    [response.toolCall] first, [response.setupComplete] second. *)
Definition is_SetupComplete (response : Val) : bool :=
  match get response "toolCall", get response "setupComplete" with
  | Return toolCall, Return setupComplete => negb (truthy toolCall) && truthy setupComplete
  | _, _ => false
  end.

(** The four operations of the outbound surface, and the line each
    prints when it is called too early. *)
Definition is_send (a : Action) : bool :=
  match a with
  | SendAudio _ | SendImage _ | SendText _ _ | SendToolResponse _ => true
  | _ => false
  end.

Definition early_warning (a : Action) : string :=
  match a with
  | SendAudio _ => "Attempted to send audio before setup completed."
  | SendImage _ => "Attempted to send image before setup completed."
  | SendText _ _ => "Attempted to send text before setup completed."
  | SendToolResponse _ => "Attempted to send tool response before setup completed."
  | _ => "Attempted to send JSON before setup completed."
  end.

(** A tool response that passes the checks of [sendToolResponse]. *)
Definition accepted_tool_response (toolResponse : Val) : bool :=
  truthy toolResponse &&
  match get toolResponse "id", get toolResponse "output", get toolResponse "error" with
  | Return id, Return output, Return error =>
      truthy id &&
      (truthy error || match output with JUndefined => false | _ => true end)
  | _, _, _ => false
  end.

(** The sends that get as far as building a frame. *)
Definition builds_frame (a : Action) : bool :=
  match a with
  | SendAudio _ | SendImage _ | SendText _ _ | SendJSON _ => true
  | SendToolResponse r => accepted_tool_response r
  | _ => false
  end.

(** The error [sendJSON] throws when [this.ws] is [null]. *)
Definition transport_absent (json : Val) (name : string) : Exn :=
  JsError (send_failed_message json name (JsError (ws_null_message json name))).


(** A client that [connect] will open a socket for: no socket at hand,
    no attempt under way, a key in local storage, an address the browser
    takes. *)
Definition can_connect (w : World) (key u : string) : Prop :=
  ws (this w) = None ∧ isConnecting (this w) = false
  ∧ deepgramApiKey w = Some key ∧ is_empty key = false
  ∧ wsUrl (url (this w)) key = Some u ∧ webSocketAccepts u = true.

(** Parts of a model turn, and the frame that carries them. *)
Definition TextPart (text : string) : Val := JObj [("text", JStr text)].
Definition AudioPart (mimeType data : string) : Val :=
  JObj [("inlineData", JObj [("mimeType", JStr mimeType); ("data", JStr data)])].
Definition modelTurn_of (parts : list Val) : Val :=
  JObj [("modelTurn", JObj [("parts", JArr parts)])].
Definition ServerContent (parts : list Val) : Val :=
  JObj [("serverContent", modelTurn_of parts)].

(** The parts [receive] counts as audio. *)
Definition is_audio (v : Val) : bool :=
  match is_audio_part v with Return true => true | _ => false end.

(** A tool result for call "t1". *)
Definition tool_result (fields : list (string * Val)) : Val :=
  JObj (("id", JStr "t1") :: fields).

(** [keeps R m]: across [m] the flag moves along [R] only. *)
Definition keeps (R : relation bool) {A} (m : M A) : Prop :=
  ∀ w, R (flag w) (flag (world_of (m w))).

(** The flag never goes back. *)
Definition once (b1 b2 : bool) : Prop := b1 = true → b2 = true.

End Methods.
End Client.

(** ** The client with the listeners of the page *)

Module Listening.
Import Client.

(** [GeminiWebsocketClient] extends [EventEmitter]: [this.emit] is the
    inherited method, on [this._events].  A listener is given the
    arguments of [emit] and the world the client lives in, which it may
    change (it may call the client back), and it may throw; what it
    prints or sends on its own account is the page's and is not
    recorded.  The client never calls [on] or [removeListener] itself:
    the store is what the page has made of it, and the methods read
    it. *)
Abbreviation Handler := (EventEmitter.Listener (list Arg) World).
Abbreviation Store := (gmap string (list Handler)).

Section Methods.
Context `{Platform}.
Variable _events : Store.

(** this.emit(event, ...args): what a listener throws leaves [emit],
    and with it the method that called [emit]. *)
Definition emit (event : string) (args : list Arg) : M unit := fun w =>
  match EventEmitter.emit _events event args w with
  | (w1, _, Return _) => (w1, [Emit event args], Return tt)
  | (w1, _, Throw e) => (w1, [Emit event args], Throw e)
  end.

(** The methods and handlers that publish, as in [Client] but for
    [emit]; the others ([disconnect], [sendJSON] and the four sends, the
    open handler) publish nothing and are the ones of [Client]. *)

(** *** receive(blob) *)
Definition receive_modelTurn (c : Client) (modelTurn : Val) : M unit :=
  parts ← prop modelTurn "parts";
  parts ← lift (elements parts);
  textParts ← lift (filterR (fun p => has_text p.2) parts);
  forEach textParts (fun p =>
    text ← prop p.2 "text";
    emit "text" [AVal text]) ;;
  audioParts ← lift (filterR (fun p => is_audio_part p.2) parts);
  base64s ← lift (mapR (fun p => inline_data p.2) audioParts);
  let otherParts := List.filter (fun p => negb (includes audioParts p)) parts in
  forEach base64s (fun b64 =>
    when (truthy b64)
      (data ← lift (base64ToArrayBuffer b64);
       emit "audio" [ABuf data])) ;;
  when (negb (length otherParts =? 0)%nat)
    (emit "content"
       [AVal (JObj [("modelTurn", JObj [("parts", JArr (otherParts.*2))])])] ;;
     console Debug (name c +:+ " sent:")).

Definition receive (response : Val) : M unit :=
  c ← get_this;
  toolCall ← prop response "toolCall";
  if truthy toolCall then
    console Debug (name c +:+ " received tool call") ;;
    emit "tool_call" [AVal toolCall]
  else
  setupComplete ← prop response "setupComplete";
  if truthy setupComplete then
    modify_this (set_isSetupComplete true) ;;
    emit "setupComplete" []
  else
  toolCallCancellation ← prop response "toolCallCancellation";
  if truthy toolCallCancellation then
    console Debug (name c +:+ " received tool call cancellation") ;;
    emit "tool_call_cancellation" [AVal toolCallCancellation]
  else
  serverContent ← prop response "serverContent";
  if truthy serverContent then
    interrupted ← prop serverContent "interrupted";
    if truthy interrupted then
      console Debug (name c +:+ " is interrupted") ;;
      emit "interrupted" []
    else
      turnComplete ← prop serverContent "turnComplete";
      when (truthy turnComplete)
        (console Debug (name c +:+ " has completed its turn") ;;
         emit "turn_complete" []) ;;
      modelTurn ← prop serverContent "modelTurn";
      when (truthy modelTurn) (receive_modelTurn c modelTurn)
  else
    console Debug (name c +:+ " received unmatched message:").

(** *** connect(): an async function, so that an exception inside it
    rejects the promise it returns *)
Definition connect : M Returned :=
  c ← get_this;
  st ← ws_readyState;
  if match st with Some OPEN => true | _ => false end then
    mret (returned_promise (connectionPromise c))
  else if isConnecting c then
    mret (returned_promise (connectionPromise c))
  else
    apiKey ← getItem_deepgramApiKey;
    match apiKey with
    | None | Some EmptyString =>
        console Error no_key_message ;;
        emit "error" [AVal (JStr no_key_message)] ;;
        mret (Settled (Rejected (JsError no_key_message)))
    | Some apiKey =>
        match wsUrl (url c) apiKey with
        | None =>
            console Error "Invalid WebSocket URL:" ;;
            emit "error" [AVal (JStr "Invalid WebSocket URL")] ;;
            mret (Settled (Rejected (TypeError "Invalid URL")))
        | Some wsUrl =>
            console Info "🔗 Establishing WebSocket connection..." ;;
            modify_this (set_isConnecting true) ;;
            pid ← new_connection wsUrl;
            modify_this (set_connectionPromise (Some pid)) ;;
            mret (Follows pid)
        end
    end.

(** ws.addEventListener('error', ...) *)
Definition on_error (sid : nat) (reason : option string) : M unit :=
  browser_sets sid CLOSED ;;
  disconnect ;;
  wsUrl ← url_of sid;
  let shown := match reason with
               | None | Some EmptyString => "Unknown"
               | Some r => r
               end in
  let message := "Could not connect to " +:+ dquote +:+ wsUrl +:+ dquote +:+
                 ". Reason: " +:+ shown in
  console Error message ;;
  emit "error" [AVal (JStr message)] ;;
  reject sid (ErrorEvent reason).

(** ws.addEventListener('message', ...) *)
Definition on_message (data : MessageData) : M unit :=
  match data with
  | Blob (Some response) => detached (receive response)
  | Blob None => mret tt
  | NotBlob => console Error "Non-blob message received"
  end.

(** ws.addEventListener('close', ...) *)
Definition on_close (sid : nat) (event : CloseEvent) : M unit :=
  browser_sets sid CLOSED ;;
  console Warn (closed_message event) ;;
  disconnect ;;
  (if authFailure event then
     console Error (auth_message event) ;;
     emit "auth_failed" [AVal (JStr (auth_message event))] ;;
     emit "error" [AVal (JStr (auth_message event))]
   else
     emit "disconnected"
       [AVal (JObj [("code", JNum (code event));
                    ("reason", JStr (reason event));
                    ("wasClean", JBool (wasClean event))])]) ;;
  c ← get_this;
  when (isConnecting c)
    (modify_this (set_isConnecting false) ;;
     reject sid (JsError (closed_during_connect_message event))).

Definition perform (a : Action) : M unit :=
  match a with
  | Connect => connect ;; mret tt
  | Disconnect => disconnect
  | SendAudio b => sendAudio b
  | SendImage b => sendImage b
  | SendText t e => sendText t e
  | SendToolResponse r => sendToolResponse r
  | SendJSON j => sendJSON j
  | WsOpen sid => dispatched sid (on_open sid)
  | WsError sid r => dispatched sid (on_error sid r)
  | WsMessage sid d => dispatched sid (on_message d)
  | WsClose sid e => dispatched sid (on_close sid e)
  end.

End Methods.

Arguments emit : simpl never.

(** *** Vocabulary: what the listeners of an event do *)

(** A listener that comes back from every call and leaves the client
    and its environment as they are. *)
Definition calm (l : Handler) : Prop :=
  ∀ args w, EventEmitter.call l args w = (w, None).

(** Every listener registered for the event is calm (which is so, in
    particular, when none is registered). *)
Definition quiet (_events : Store) (event : string) : Prop :=
  ∀ ls, _events !! event = Some ls → Forall calm ls.

(** Among the listeners of the event, after calm ones, there is one
    that throws [e] from every call (and leaves the world alone). *)
Definition breaks (_events : Store) (event : string) (e : Exn) : Prop :=
  ∃ pre l post, _events !! event = Some (pre ++ l :: post) ∧ Forall calm pre
                ∧ ∀ args w, EventEmitter.call l args w = (w, Some e).

(** The names the client publishes under. *)
Definition client_events : list string :=
  [ "error"; "auth_failed"; "disconnected"; "tool_call"; "setupComplete";
    "tool_call_cancellation"; "interrupted"; "turn_complete"; "text"; "audio";
    "content" ].

(** Two methods that do the same in every world. *)
Definition same {A} (m m' : M A) : Prop := ∀ w, m w = m' w.

End Listening.

(** ** One page to run the examples on *)

Module Scenario.
Import Client.

(** An environment whose [URL] refuses the empty address only, whose
    [WebSocket] takes every address, and whose decoder hands back the
    bytes of a string as they are. *)
#[export] Instance browser : Platform := {|
  wsUrl := fun url key => if is_empty url then None else Some (url +:+ "?key=" +:+ key);
  webSocketAccepts := fun _ => true;
  base64ToArrayBuffer := fun v =>
    match v with
    | JStr s => Return (String.list_byte_of_string s)
    | _ => Throw (DOMException "The string to be decoded is not correctly encoded.")
    end
|}.

Definition page : World :=
  fresh "live" "wss://example.test/live" (JObj [("model", JStr "m")]) (Some "K").

Definition setupComplete_frame : Val := JObj [("setupComplete", JBool true)].

(** The page after [connect()], and after the socket opened and the
    server confirmed the setup. *)
Definition connecting : World := (run [Connect] page).1.1.
Definition ready : World :=
  (run [Connect; WsOpen 0; WsMessage 0 (Blob (Some setupComplete_frame))] page).1.1.

Definition other_part : Val := JObj [("executableCode", JObj [("code", JStr "1+1")])].

(** Listeners over a log of the listeners that ran. *)
Definition logs (n : nat) : EventEmitter.Listener unit (list nat) :=
  EventEmitter.mkListener n (fun _ w => (w ++ [n], None)).
Definition fails (n : nat) : EventEmitter.Listener unit (list nat) :=
  EventEmitter.mkListener n (fun _ w => (w ++ [n], Some (JsError "boom"))).

Definition two_listeners : gmap string (list (EventEmitter.Listener unit (list nat))) :=
  match EventEmitter.on_all EventEmitter.new "text" [fails 0; logs 1] with
  | Return _events => _events
  | Throw _ => ∅
  end.

(** Two listeners for "text" that come back, and the same two followed
    by one that throws and one more. *)
Definition in_order : gmap string (list (EventEmitter.Listener unit (list nat))) :=
  <["text" := [logs 0; logs 1]]> EventEmitter.new.
Definition with_thrower : gmap string (list (EventEmitter.Listener unit (list nat))) :=
  <["text" := [logs 0; logs 1; fails 2; logs 3]]> EventEmitter.new.

End Scenario.

(** ** Vocabulary of the further properties *)

Module Further.
Import Client.
Section Vocabulary.
Context `{Platform}.

(** The world [connect] leaves when it opens a socket for address [u]. *)
Definition attempt (w : World) (u : string) : World :=
  {| this := set_connectionPromise (Some (length (promises w)))
               (set_isConnecting true (this w));
     sockets := sockets w ++ [mkSocket u CONNECTING (length (promises w))];
     promises := promises w ++ [Pending];
     deepgramApiKey := deepgramApiKey w |}.

(** The world [disconnect] leaves when the client holds socket [sid]. *)
Definition torn_down (w : World) (sid : nat) : World :=
  {| this := set_connectionPromise None (set_isConnecting false (set_ws None (this w)));
     sockets := alter (fun k => match readyState k with
                                | CONNECTING | OPEN => set_readyState CLOSING k
                                | CLOSING | CLOSED => k
                                end) sid (sockets w);
     promises := promises w;
     deepgramApiKey := deepgramApiKey w |}.


(** A client past the handshake that holds an open socket. *)
Definition ready_on (w : World) (sid : nat) : Prop :=
  flag w = true ∧ ws (this w) = Some sid
  ∧ ∃ k, sockets w !! sid = Some k ∧ readyState k = OPEN.

(** [v.k] of a value that is not [null] or [undefined]. *)
Definition field (v : Val) (k : string) : Val :=
  match get v k with Return x => x | Throw _ => JUndefined end.

(** A decoded frame whose properties can be read: anything but [null]
    (and [undefined], which [JSON.parse] never yields). *)
Definition readable (v : Val) : Prop := v ≠ JNull ∧ v ≠ JUndefined.

(** { realtimeInput: { mediaChunks: [{ mimeType, data }] } } *)
Definition media_envelope (mimeType data : string) : Val :=
  JObj [("realtimeInput",
         JObj [("mediaChunks",
                JArr [JObj [("mimeType", JStr mimeType); ("data", JStr data)]])])].

(** { clientContent: { turns: [{ role: 'user', parts: { text } }], turnComplete } } *)
Definition text_envelope (text : string) (turnComplete : bool) : Val :=
  JObj [("clientContent",
         JObj [("turns", JArr [JObj [("role", JStr "user");
                                     ("parts", JObj [("text", JStr text)])]]);
               ("turnComplete", JBool turnComplete)])].

(** What a filter keeps: the elements its callback answers [true] for. *)
Definition picks {A} (f : A -> Result bool) (x : A) : bool :=
  match f x with Return true => true | _ => false end.

(** A part as the three traversals of [receive] see it: each of the two
    filters answers without throwing. *)
Definition well_formed (p : Val) : Prop :=
  (∃ b, has_text p = Return b) ∧ (∃ b, is_audio_part p = Return b).

(** The texts of the parts with a truthy [text], in order. *)
Definition texts (items : list Val) : list Val :=
  omap (fun p => match get p "text" with
                 | Return t => if truthy t then Some t else None
                 | Throw _ => None
                 end) items.

(** The truthy [inlineData.data] of the audio parts, in order. *)
Definition audio_payloads (items : list Val) : list Val :=
  omap (fun p => if is_audio p
                 then match inline_data p with
                      | Return b64 => if truthy b64 then Some b64 else None
                      | Throw _ => None
                      end
                 else None) items.

(** Decoding payloads one after the other until one throws. *)
Fixpoint decode_until (b64s : list Val) : list ArrayBuffer * option Exn :=
  match b64s with
  | [] => ([], None)
  | b64 :: rest =>
      match base64ToArrayBuffer b64 with
      | Throw e => ([], Some e)
      | Return data =>
          let '(bufs, failure) := decode_until rest in (data :: bufs, failure)
      end
  end.

Definition non_audio (items : list Val) : list Val :=
  List.filter (fun v => negb (is_audio v)) items.

Definition text_events (items : list Val) : list (string * list Arg) :=
  (fun t => ("text", [AVal t])) <$> texts items.
Definition audio_events (bufs : list ArrayBuffer) : list (string * list Arg) :=
  (fun b => ("audio", [ABuf b])) <$> bufs.
Definition content_events (items : list Val) : list (string * list Arg) :=
  match non_audio items with
  | [] => []
  | others => [("content", [AVal (modelTurn_of others)])]
  end.

(** What the close handler prints and publishes about the close. *)
Definition close_report (event : CloseEvent) : list Effect :=
  if authFailure event
  then [Console Error (auth_message event);
        Emit "auth_failed" [AVal (JStr (auth_message event))];
        Emit "error" [AVal (JStr (auth_message event))]]
  else [Emit "disconnected"
          [AVal (JObj [("code", JNum (code event)); ("reason", JStr (reason event));
                       ("wasClean", JBool (wasClean event))])]].

(** What the error handler prints and publishes. *)
Definition error_message (wsUrl : string) (reason : option string) : string :=
  "Could not connect to " +:+ dquote +:+ wsUrl +:+ dquote +:+ ". Reason: " +:+
  match reason with
  | None | Some EmptyString => "Unknown"
  | Some r => r
  end.

(** What [receive] does to the outside for the parts of a model turn:
    the text events, the audio events up to a payload that does not
    decode, and, when all decoded, the content event with its debug
    line. *)
Definition text_effects (items : list Val) : list Effect :=
  (fun t => Emit "text" [AVal t]) <$> texts items.
Definition audio_effects (items : list Val) : list Effect :=
  (fun b => Emit "audio" [ABuf b]) <$> (decode_until (audio_payloads items)).1.
Definition content_effects (name : string) (items : list Val) : list Effect :=
  match non_audio items with
  | [] => []
  | others => [Emit "content" [AVal (modelTurn_of others)];
               Console Debug (name +:+ " sent:")]
  end.

(** Console lines and emitted events: what a method shows without
    acting on a socket. *)
Definition shows_only (e : Effect) : bool :=
  match e with Console _ _ | Emit _ _ => true | Send _ _ | Close _ => false end.

(** A world with its handshake-complete flag put down: two worlds with
    the same [flagless] differ in that flag at most. *)
Definition flagless (w : World) : World :=
  set_this (set_isSetupComplete false (this w)) w.

(** A method that only shows, and writes nothing but the flag. *)
Definition inbound {A} (m : M A) : Prop :=
  ∀ w, flagless (world_of (m w)) = flagless w
       ∧ Forall (fun e => shows_only e = true) (effects_of (m w)).

(** Two strings alike up to the case of ASCII letters. *)
Fixpoint alike (a b : string) : bool :=
  match a, b with
  | EmptyString, EmptyString => true
  | String x a', String y b' => Ascii.eqb (lower x) (lower y) && alike a' b'
  | _, _ => false
  end.

End Vocabulary.
End Further.

(** ** More of the example page *)

Module Cases.
Import Client Scenario.

(** The page of a visitor who has stored no key. *)
Definition keyless : World :=
  fresh "live" "wss://example.test/live" (JObj [("model", JStr "m")]) None.

(** The ready page after [disconnect()]; after a second connection has
    opened while the first socket is still closing; and at the moment the
    server has begun to close the socket. *)
Definition hung_up : World := (run [Disconnect] ready).1.1.
Definition second_call : World := (run [Disconnect; Connect; WsOpen 1] ready).1.1.

Definition tool_call_frame : Val :=
  JObj [("toolCall", JObj [("functionCalls", JArr [JObj [("id", JStr "t1")]])]);
        ("setupComplete", JBool true)].
Definition interrupted_frame : Val :=
  JObj [("serverContent",
         JObj [("interrupted", JBool true); ("turnComplete", JBool true);
               ("modelTurn", JObj [("parts", JArr [TextPart "late"])])])].
Definition usage_frame : Val := JObj [("usageMetadata", JObj [("totalTokenCount", JNum 7)])].

(** Listeners of the page: one that comes back, one that throws. *)
Definition hears (n : nat) : Listening.Handler :=
  EventEmitter.mkListener n (fun _ w => (w, None)).
Definition chokes (n : nat) : Listening.Handler :=
  EventEmitter.mkListener n (fun _ w => (w, Some (JsError "boom"))).

(** A page whose listeners all come back, and the same page with, for
    one event, a listener that throws between two that do not. *)
Definition audience : Listening.Store :=
  <["text" := [hears 0]]> (<["audio" := [hears 1]]> (<["content" := [hears 2]]>
  (<["error" := [hears 3; hears 4]]> (<["auth_failed" := [hears 5]]>
  (<["disconnected" := [hears 6]]> ∅))))).
Definition heckled (event : string) : Listening.Store :=
  <[event := [hears 7; chokes 8; hears 9]]> audience.

Definition mixed_parts : list Val :=
  [TextPart "a"; AudioPart "audio/pcm;rate=24000" "AAAA"; TextPart "b"; other_part].

End Cases.

(* ===================================================================== *)
(** * Part II: properties *)
(* ===================================================================== *)

(** ** The event emitter *)

Section EmitterProps.
Import EventEmitter.
Context {A W : Type}.
Implicit Types (l : Listener A W) (ls pre post more : list (Listener A W))
  (evs : gmap string (list (Listener A W))) (w : W) (args : A).

Lemma read_insert evs event ls : read (<[event := ls]> evs) event = Own ls.
Proof. unfold read. by rewrite lookup_insert_eq. Qed.

Lemma read_new event :
  event ∉ object_prototype_keys → read (new : gmap string (list (Listener A W))) event = Absent.
Proof.
  intros Hk. unfold read, new. rewrite lookup_empty.
  by rewrite bool_decide_eq_false_2.
Qed.

Lemma on_all_own ls : ∀ evs event ls0,
  read evs event = Own ls0 →
  ∃ evs', on_all evs event ls = Return evs' ∧ read evs' event = Own (ls0 ++ ls).
Proof.
  induction ls as [|l ls IH]; intros evs event ls0 Hr; simpl.
  - exists evs. by rewrite app_nil_r.
  - unfold on. rewrite Hr.
    destruct (IH (<[event := ls0 ++ [l]]> evs) event (ls0 ++ [l])) as (evs' & Hon & Hr').
    { apply read_insert. }
    exists evs'. split; [done|]. by rewrite Hr', <-app_assoc.
Qed.

Lemma on_all_new event ls :
  event ∉ object_prototype_keys →
  ∃ evs, on_all new event ls = Return evs.
Proof.
  intros Hk. destruct ls as [|l ls]; simpl; [by eexists|].
  unfold on. rewrite (read_new _ Hk).
  destruct (on_all_own ls (<[event := [l]]> new) event [l]) as (evs & Hon & _).
  { apply read_insert. }
  by exists evs.
Qed.

(** Whatever the name, listeners that did get registered on a new
    emitter sit in its own array for the event, in that order. *)
Lemma on_all_registered event ls evs :
  ls ≠ [] → on_all new event ls = Return evs → read evs event = Own ls.
Proof.
  intros Hne. destruct ls as [|l ls]; [done|]. simpl. unfold on.
  destruct (read new event) as [| |ls0] eqn:Hr.
  - destruct (on_all_own ls (<[event := [l]]> new) event [l]) as (evs' & Hon & Hr').
    { apply read_insert. }
    rewrite Hon. by intros [= <-].
  - done.
  - unfold read, new in Hr. rewrite lookup_empty in Hr. by case_bool_decide.
Qed.

Lemma forEach_app pre : ∀ rest args w,
  Forall (returns args) pre →
  ∃ w1, forEach (pre ++ rest) args w =
        (let '(w2, entered, r) := forEach rest args w1 in
         (w2, (ref <$> pre) ++ entered, r)).
Proof.
  induction pre as [|l pre IH]; intros rest args w Hpre; simpl.
  - exists w. by destruct (forEach rest args w) as [[??]?].
  - inversion Hpre as [|?? Hl Hpre']; subst.
    specialize (Hl w). destruct (call l args w) as [w1 o] eqn:Hc. simpl in Hl. subst o.
    destruct (IH rest args w1 Hpre') as (w2 & ->).
    exists w2. by destruct (forEach rest args w2) as [[??]?].
Qed.

Lemma registered_own evs event ls : read evs event = Own ls → registered evs event = ls.
Proof.
  unfold read, registered. destruct (evs !! event); [by intros [= ->]|by case_bool_decide].
Qed.

Lemma registered_absent evs event : read evs event = Absent → registered evs event = [].
Proof. unfold read, registered. by destruct (evs !! event). Qed.

Lemma on_all_appends more : ∀ evs event evs',
  on_all evs event more = Return evs' → registered evs' event = registered evs event ++ more.
Proof.
  induction more as [|l more IH]; intros evs event evs'; cbn [on_all].
  - intros [= <-]. by rewrite app_nil_r.
  - unfold on. destruct (read evs event) as [| |ls] eqn:Hr; [|done|]; intros Hon;
      rewrite (IH _ _ _ Hon); unfold registered at 1; rewrite lookup_insert_eq; cbn.
    + by rewrite (registered_absent _ _ Hr).
    + by rewrite (registered_own _ _ _ Hr), <-app_assoc.
Qed.

Lemma on_all_goes_through more : ∀ evs event,
  read evs event ≠ Inherited → ∃ evs', on_all evs event more = Return evs'.
Proof.
  induction more as [|l more IH]; intros evs event Hr; cbn [on_all]; [by eexists|].
  unfold on. destruct (read evs event) as [| |ls]; [|done|];
    (apply IH; by rewrite read_insert).
Qed.

Lemma in_turn_cons l ls args w :
  in_turn (l :: ls) args w = in_turn ls args (call l args w).1.
Proof. done. Qed.

Lemma forEach_in_turn ls : ∀ args w,
  (∀ i l, ls !! i = Some l → (call l args (in_turn (take i ls) args w)).2 = None) →
  forEach ls args w = (in_turn ls args w, ref <$> ls, None).
Proof.
  induction ls as [|l ls IH]; intros args w Hall; [done|].
  pose proof (Hall 0 l eq_refl) as H0. cbn in H0.
  cbn [forEach]. destruct (call l args w) as [w1 o] eqn:Hc. cbn in H0. subst o.
  rewrite (IH args w1).
  - by rewrite in_turn_cons, Hc.
  - intros i l' Hl'. specialize (Hall (S i) l' Hl'). by rewrite firstn_cons, in_turn_cons, Hc in Hall.
Qed.

Lemma forEach_until ls : ∀ args w i l e,
  ls !! i = Some l →
  (∀ j l', j < i → ls !! j = Some l' →
           (call l' args (in_turn (take j ls) args w)).2 = None) →
  (call l args (in_turn (take i ls) args w)).2 = Some e →
  forEach ls args w = (in_turn (take (S i) ls) args w, ref <$> take (S i) ls, Some e).
Proof.
  induction ls as [|l0 ls IH]; intros args w i l e Hl Hbefore Hthrow; [done|].
  destruct i as [|i].
  - injection Hl as ->. cbn in Hthrow. cbn [forEach].
    destruct (call l args w) as [w1 o] eqn:Hc. cbn in Hthrow. subst o.
    rewrite firstn_cons, take_0, in_turn_cons, Hc. done.
  - pose proof (Hbefore 0 l0 ltac:(lia) eq_refl) as H0. cbn in H0.
    cbn [forEach]. destruct (call l0 args w) as [w1 o] eqn:Hc. cbn in H0. subst o.
    rewrite (IH args w1 i l e Hl).
    + by rewrite (firstn_cons (S i)), in_turn_cons, Hc.
    + intros j l' Hj Hl'. specialize (Hbefore (S j) l' ltac:(lia) Hl').
      by rewrite firstn_cons, in_turn_cons, Hc in Hbefore.
    + by rewrite firstn_cons, in_turn_cons, Hc in Hthrow.
Qed.

(** C9 (as amended).  For every store and every event name: the
    listeners the event has are the ones registered for it, in the order
    of their registration ([on] appends).  [emit] calls them in that
    order, the first on the world [emit] was called in and each of the
    others on the world the one before it left.  When each comes back
    from its call, all have been entered, the world is the one the last
    left and [emit] returns [true]; when one throws, the world is the
    one it left, the exception leaves [emit] and the listeners
    registered after it are not entered. *)
Theorem emit_registration_order_until_throw evs event args w :
  let ls := registered evs event in
  (∀ more evs', on_all evs event more = Return evs' → registered evs' event = ls ++ more)
  ∧ (read evs event ≠ Inherited → ∀ more, ∃ evs', on_all evs event more = Return evs')
  ∧ (ls ≠ [] →
     (∀ i l, ls !! i = Some l → (call l args (in_turn (take i ls) args w)).2 = None) →
     emit evs event args w = (in_turn ls args w, ref <$> ls, Return true))
  ∧ (∀ i l e, ls !! i = Some l →
       (∀ j l', j < i → ls !! j = Some l' →
                (call l' args (in_turn (take j ls) args w)).2 = None) →
       (call l args (in_turn (take i ls) args w)).2 = Some e →
       emit evs event args w
       = (in_turn (take (S i) ls) args w, ref <$> take (S i) ls, Throw e)).
Proof.
  cbn zeta. split; [|split; [|split]].
  - intros more evs'. apply on_all_appends.
  - intros Hr more. by apply on_all_goes_through.
  - intros Hne Hall. unfold emit, read. unfold registered in *.
    destruct (evs !! event) as [ls|]; [|done]. cbn in *.
    by rewrite (forEach_in_turn ls args w Hall).
  - intros i l e Hl Hbefore Hthrow. unfold emit, read. unfold registered in *.
    destruct (evs !! event) as [ls|]; [|done]. cbn in *.
    by rewrite (forEach_until ls args w i l e Hl Hbefore Hthrow).
Qed.
End EmitterProps.


(** C9, on an example: two listeners that note their number come back
    and are entered in the order they were registered in, each on what
    the one before it noted; a third that throws ends the publication. *)
Lemma emit_registration_order_witness :
  EventEmitter.registered Scenario.in_order "text" = [Scenario.logs 0; Scenario.logs 1]
  ∧ EventEmitter.on_all Scenario.in_order "text" [Scenario.fails 2; Scenario.logs 3]
    = Return Scenario.with_thrower
  ∧ EventEmitter.registered Scenario.with_thrower "text"
    = [Scenario.logs 0; Scenario.logs 1] ++ [Scenario.fails 2; Scenario.logs 3]
  ∧ EventEmitter.emit Scenario.in_order "text" () [7] = ([7; 0; 1], [0; 1], Return true)
  ∧ EventEmitter.emit Scenario.with_thrower "text" () [7]
    = ([7; 0; 1; 2], [0; 1; 2], Throw (JsError "boom")).
Proof.
  assert (Hr : EventEmitter.registered Scenario.in_order "text"
               = [Scenario.logs 0; Scenario.logs 1])
    by (vm_compute; reflexivity).
  assert (Hr' : EventEmitter.registered Scenario.with_thrower "text"
                = [Scenario.logs 0; Scenario.logs 1; Scenario.fails 2; Scenario.logs 3])
    by (vm_compute; reflexivity).
  assert (Hon : EventEmitter.on_all Scenario.in_order "text"
                  [Scenario.fails 2; Scenario.logs 3]
                = Return Scenario.with_thrower) by (vm_compute; reflexivity).
  split; [exact Hr|]. split; [exact Hon|].
  destruct (emit_registration_order_until_throw Scenario.in_order "text" () [7])
    as (Happ & _ & Hall & _).
  destruct (emit_registration_order_until_throw Scenario.with_thrower "text" () [7])
    as (_ & _ & _ & Hthrow).
  split; [|split].
  - rewrite <-Hr. exact (Happ _ Scenario.with_thrower Hon).
  - rewrite Hr in Hall. apply Hall; [discriminate|].
    intros [|[|i]] l Hl; cbn in Hl; simplify_eq; reflexivity.
  - rewrite Hr' in Hthrow.
    apply (Hthrow 2 (Scenario.fails 2) (JsError "boom") eq_refl); [|reflexivity].
    intros [|[|j]] l' Hj Hl'; cbn in Hl'; simplify_eq; [reflexivity|reflexivity|lia].
Defined.

(** C9 as stated fails: of two listeners registered for "text", the
    first throwing, the second is never entered. *)
Lemma emit_stops_at_throwing_listener :
  ¬ EventEmitter.enters_all Scenario.two_listeners "text" () [].
Proof.
  intros Hall.
  specialize (Hall [Scenario.fails 0; Scenario.logs 1] (Scenario.logs 1)).
  assert (E : (EventEmitter.emit Scenario.two_listeners "text" () []).1.2 = [0])
    by (vm_compute; reflexivity).
  rewrite E in Hall.
  assert (H1 : 1 ∈ [0]).
  { apply Hall; [vm_compute; reflexivity | apply list_elem_of_further, list_elem_of_here]. }
  apply list_elem_of_singleton in H1. discriminate H1.
Qed.

(** ** The client *)

Import Client.

(** Running a method on a world given by its fields. *)
Ltac exec :=
  cbv beta iota zeta delta
    [mbind M_bind mret M_ret throw lift tell console emit get_this
     modify_this prop when detached try_catch getItem_deepgramApiKey];
  cbn.

(** Looking a socket or a promise up in a table a handler has written. *)
Ltac look_up Hk Hp :=
  repeat (progress (rewrite ?list_lookup_alter_eq, ?Hk, ?Hp; cbn)).

(** *** The handshake-complete flag *)

Section Flag.
Context `{Platform}.

Section Keeps.
Context (R : relation bool) `{!PreOrder R}.

Lemma keeps_same {A} (m : M A) : (∀ w, flag (world_of (m w)) = flag w) → keeps R m.
Proof. intros E w. by rewrite E. Qed.

Lemma keeps_ret {A} (a : A) : keeps R (mret a).
Proof. by apply keeps_same. Qed.
Lemma keeps_throw {A} e : keeps R (throw e : M A).
Proof. by apply keeps_same. Qed.
Lemma keeps_lift {A} (r : Result A) : keeps R (lift r).
Proof. by apply keeps_same. Qed.
Lemma keeps_tell e : keeps R (tell e).
Proof. by apply keeps_same. Qed.
Lemma keeps_console l s : keeps R (console l s).
Proof. by apply keeps_same. Qed.
Lemma keeps_emit ev args : keeps R (emit ev args).
Proof. by apply keeps_same. Qed.
Lemma keeps_get_this : keeps R get_this.
Proof. by apply keeps_same. Qed.
Lemma keeps_prop v k : keeps R (prop v k).
Proof. by apply keeps_same. Qed.
Lemma keeps_modify f :
  (∀ c, _isSetupComplete (f c) = _isSetupComplete c) → keeps R (modify_this f).
Proof. intros E. apply keeps_same. intros w. apply E. Qed.
Lemma keeps_ws_readyState : keeps R ws_readyState.
Proof. by apply keeps_same. Qed.
Lemma keeps_ws_close sid : keeps R (ws_close sid).
Proof. by apply keeps_same. Qed.
Lemma keeps_browser_sets sid s : keeps R (browser_sets sid s).
Proof. by apply keeps_same. Qed.
Lemma keeps_settle pid s : keeps R (settle pid s).
Proof. apply keeps_same. intros w. unfold settle. by repeat case_match. Qed.
Lemma keeps_resolve sid : keeps R (resolve sid).
Proof.
  intros w. unfold resolve. case_match; [apply keeps_settle | done].
Qed.
Lemma keeps_reject sid e : keeps R (reject sid e).
Proof.
  intros w. unfold reject. case_match; [apply keeps_settle | done].
Qed.
Lemma keeps_url_of sid : keeps R (url_of sid).
Proof. by apply keeps_same. Qed.
Lemma keeps_getItem : keeps R getItem_deepgramApiKey.
Proof. by apply keeps_same. Qed.
Lemma keeps_new_connection u : keeps R (new_connection u).
Proof. apply keeps_same. intros w. unfold new_connection. by case_match. Qed.

Lemma keeps_bind {A B} (m : M A) (k : A → M B) :
  keeps R m → (∀ a, keeps R (k a)) → keeps R (m ≫= k).
Proof.
  intros Hm Hk w. specialize (Hm w). unfold mbind, M_bind.
  destruct (m w) as [[w1 t1] [a|e]]; [|done].
  specialize (Hk a w1). destruct (k a w1) as [[w2 t2] r].
  by etrans.
Qed.

(** After a pure step the continuation knows what it was given. *)
Lemma keeps_bind_lift {A B} (r : Result A) (k : A → M B) :
  (∀ a, r = Return a → keeps R (k a)) → keeps R (lift r ≫= k).
Proof.
  intros Hk w. unfold mbind, M_bind, lift. destruct r as [a|e]; [|done].
  specialize (Hk a eq_refl w). destruct (k a w) as [[w2 t2] r']. done.
Qed.

Lemma keeps_try_catch {A} (m : M A) h :
  keeps R m → (∀ e, keeps R (h e)) → keeps R (try_catch m h).
Proof.
  intros Hm Hh w. specialize (Hm w). unfold try_catch.
  destruct (m w) as [[w1 t1] [a|e]]; [done|].
  specialize (Hh e w1). destruct (h e w1) as [[w2 t2] r].
  by etrans.
Qed.

Lemma keeps_detached {A} (m : M A) : keeps R m → keeps R (detached m).
Proof.
  intros Hm w. specialize (Hm w). unfold detached.
  by destruct (m w) as [[w1 t1] r].
Qed.

Lemma keeps_when b m : keeps R m → keeps R (when b m).
Proof. intros Hm. destruct b; [done | apply keeps_ret]. Qed.

Lemma keeps_forEach {A} (l : list A) f : (∀ a, keeps R (f a)) → keeps R (forEach l f).
Proof.
  intros Hf. induction l as [|x l IH]; simpl.
  - apply keeps_ret.
  - by apply keeps_bind.
Qed.

Lemma keeps_dispatched sid m : keeps R m → keeps R (dispatched sid m).
Proof. intros Hm w. unfold dispatched. case_match; [apply Hm | done]. Qed.


Ltac keeps_step :=
  cbv beta;
  lazymatch goal with
  | |- keeps _ (mbind _ (lift _)) => apply keeps_bind_lift; intros ? ?
  | |- keeps _ (mbind _ _) => apply keeps_bind; [|intros ?]
  | |- keeps _ (mret _) => apply keeps_ret
  | |- keeps _ (throw _) => apply keeps_throw
  | |- keeps _ (lift _) => apply keeps_lift
  | |- keeps _ (tell _) => apply keeps_tell
  | |- keeps _ (console _ _) => apply keeps_console
  | |- keeps _ (emit _ _) => apply keeps_emit
  | |- keeps _ get_this => apply keeps_get_this
  | |- keeps _ (prop _ _) => apply keeps_prop
  | |- keeps _ (modify_this _) => apply keeps_modify; done
  | |- keeps _ ws_readyState => apply keeps_ws_readyState
  | |- keeps _ (ws_close _) => apply keeps_ws_close
  | |- keeps _ (browser_sets _ _) => apply keeps_browser_sets
  | |- keeps _ (settle _ _) => apply keeps_settle
  | |- keeps _ (resolve _) => apply keeps_resolve
  | |- keeps _ (reject _ _) => apply keeps_reject
  | |- keeps _ (url_of _) => apply keeps_url_of
  | |- keeps _ getItem_deepgramApiKey => apply keeps_getItem
  | |- keeps _ (new_connection _) => apply keeps_new_connection
  | |- keeps _ (try_catch _ _) => apply keeps_try_catch; [|intros ?]
  | |- keeps _ (detached _) => apply keeps_detached
  | |- keeps _ (when _ _) => apply keeps_when
  | |- keeps _ (forEach _ _) => apply keeps_forEach; intros ?
  | |- keeps _ (dispatched _ _) => apply keeps_dispatched
  | |- keeps _ (if ?b then _ else _) => destruct b eqn:?
  | |- keeps _ (match ?x with _ => _ end) => destruct x eqn:?
  | |- keeps _ (let _ := _ in _) => cbv zeta
  end.

Lemma keeps_sendJSON json : keeps R (sendJSON json).
Proof. unfold sendJSON. repeat keeps_step. Qed.

Lemma keeps_disconnect : keeps R disconnect.
Proof. unfold disconnect. repeat keeps_step. Qed.

Lemma keeps_sendAudio b : keeps R (sendAudio b).
Proof. unfold sendAudio. repeat first [apply keeps_sendJSON | keeps_step]. Qed.

Lemma keeps_sendImage b : keeps R (sendImage b).
Proof. unfold sendImage. repeat first [apply keeps_sendJSON | keeps_step]. Qed.

Lemma keeps_sendText t e : keeps R (sendText t e).
Proof. unfold sendText. repeat first [apply keeps_sendJSON | keeps_step]. Qed.

Lemma keeps_sendToolResponse r : keeps R (sendToolResponse r).
Proof. unfold sendToolResponse. repeat first [apply keeps_sendJSON | keeps_step]. Qed.

Lemma keeps_connect : keeps R connect.
Proof. unfold connect. repeat keeps_step. Qed.

Lemma keeps_on_open sid : keeps R (on_open sid).
Proof. unfold on_open. repeat first [apply keeps_sendJSON | keeps_step]. Qed.

Lemma keeps_on_error sid r : keeps R (on_error sid r).
Proof. unfold on_error. repeat first [apply keeps_disconnect | keeps_step]. Qed.

Lemma keeps_on_close sid e : keeps R (on_close sid e).
Proof. unfold on_close. repeat first [apply keeps_disconnect | keeps_step]. Qed.

Lemma keeps_receive_modelTurn c modelTurn : keeps R (receive_modelTurn c modelTurn).
Proof. unfold receive_modelTurn. repeat keeps_step. Qed.

(** [receive] leaves the flag alone on everything but a SetupComplete. *)
Lemma keeps_receive_other response :
  is_SetupComplete response = false → keeps R (receive response).
Proof.
  intros Hno. unfold receive, prop.
  apply keeps_bind; [apply keeps_get_this | intros c].
  apply keeps_bind_lift; intros toolCall HtoolCall.
  destruct (truthy toolCall) eqn:Htc; [repeat keeps_step|].
  apply keeps_bind_lift; intros setupComplete HsetupComplete.
  destruct (truthy setupComplete) eqn:Hsc.
  { unfold is_SetupComplete in Hno.
    by rewrite HtoolCall, HsetupComplete, Htc, Hsc in Hno. }
  repeat first [apply keeps_receive_modelTurn | keeps_step].
Qed.

End Keeps.

#[local] Instance once_preorder : PreOrder once.
Proof.
  split; [intros b Hb; exact Hb | intros b1 b2 b3 H1 H2 Hb; exact (H2 (H1 Hb))].
Qed.

Lemma once_receive response : keeps once (receive response).
Proof.
  destruct (is_SetupComplete response) eqn:E.
  - intros w _. unfold receive, prop.
    unfold is_SetupComplete in E.
    destruct (get response "toolCall") as [toolCall|] eqn:E1; [|done].
    destruct (get response "setupComplete") as [setupComplete|] eqn:E2; [|done].
    apply andb_prop in E as [Etc Esc]. apply negb_true_iff in Etc.
    exec. rewrite Etc. exec. rewrite Esc. done.
  - by apply (keeps_receive_other once).
Qed.

(** Every action but the receipt of a SetupComplete leaves the flag as
    it is, whatever [R] compares it by. *)
Lemma keeps_perform (R : relation bool) `{!PreOrder R} a :
  (∀ sid response, a = WsMessage sid (Blob (Some response)) →
                   is_SetupComplete response = false) →
  keeps R (perform a).
Proof.
  intros Hmsg. destruct a; simpl.
  - apply (keeps_bind R); [apply (keeps_connect R) | intros; apply (keeps_ret R)].
  - apply (keeps_disconnect R).
  - apply (keeps_sendAudio R).
  - apply (keeps_sendImage R).
  - apply (keeps_sendText R).
  - apply (keeps_sendToolResponse R).
  - apply (keeps_sendJSON R).
  - apply (keeps_dispatched R), (keeps_on_open R).
  - apply (keeps_dispatched R), (keeps_on_error R).
  - apply (keeps_dispatched R).
    destruct data as [[response|]|]; simpl.
    + apply (keeps_detached R), (keeps_receive_other R). by eapply Hmsg.
    + apply (keeps_ret R).
    + apply (keeps_console R).
  - apply (keeps_dispatched R), (keeps_on_close R).
Qed.

Lemma once_perform a : keeps once (perform a).
Proof.
  destruct a; try (apply (keeps_perform once); by intros).
  simpl. apply (keeps_dispatched once).
  destruct data as [[response|]|]; simpl.
  - apply (keeps_detached once), once_receive.
  - apply (keeps_ret once).
  - apply (keeps_console once).
Qed.

Lemma once_run actions : ∀ w, flag w = true → flag (run actions w).1.1 = true.
Proof.
  induction actions as [|a actions IH]; intros w Hw; simpl; [done|].
  pose proof (once_perform a w Hw) as Ha.
  destruct (perform a w) as [[w1 t1] r1]. simpl in Ha.
  specialize (IH w1 Ha). by destruct (run actions w1) as [[w2 t2] rs].
Qed.
End Flag.

(** *** Which parts the content event carries *)

Section Includes.
Context `{Platform}.
Implicit Types (p q : nat * Val) (l sel : list (nat * Val)).

Lemma filterR_Return (f : Val → Result bool) l : ∀ sel,
  filterR (λ p, f p.2) l = Return sel →
  sel = List.filter (λ p, match f p.2 with Return true => true | _ => false end) l.
Proof.
  induction l as [|p l IH]; intros sel; simpl; [by intros [= <-]|].
  destruct (f p.2) as [b|]; [|done].
  destruct (filterR _ l) as [r|]; [|done].
  intros [= <-]. rewrite (IH r eq_refl). by destruct b.
Qed.

Lemma includes_filter (g : nat * Val → bool) l p :
  NoDup l.*1 → p ∈ l → includes (List.filter g l) p = g p.
Proof.
  unfold includes. induction l as [|q l IH]; intros Hnd Hin; [by apply elem_of_nil in Hin|].
  apply NoDup_cons in Hnd as [Hq Hnd]. apply elem_of_cons in Hin as [->|Hin].
  - simpl. destruct (g q) eqn:E; simpl.
    + by rewrite Nat.eqb_refl.
    + apply not_true_is_false. intros Hex. apply existsb_exists in Hex as (q' & Hq' & Heq).
      apply filter_In in Hq' as [Hq' _]. apply Nat.eqb_eq in Heq.
      apply Hq. rewrite <-Heq. apply list_elem_of_fmap. exists q'. split; [done|].
      by apply list_elem_of_In.
  - assert (q.1 ≠ p.1) as Hne.
    { intros Heq. apply Hq. rewrite Heq. apply list_elem_of_fmap. by exists p. }
    simpl. destruct (g q); simpl; [|by apply IH].
    apply Nat.eqb_neq in Hne. rewrite Hne. simpl. by apply IH.
Qed.

Lemma imap_positions (items : list Val) : ∀ n,
  NoDup (imap (λ i x, (n + i, x)) items).*1.
Proof.
  induction items as [|x items IH]; intros n; simpl; [apply NoDup_nil_2|].
  apply NoDup_cons. split.
  - intros Hin. apply list_elem_of_fmap in Hin as ([i y] & Heq & Hin). simpl in Heq.
    apply elem_of_lookup_imap in Hin as (j & z & Hjz & _). simpl in Hjz.
    injection Hjz as Hi _. lia.
  - rewrite (imap_ext _ (λ i x, (S n + i, x))); [apply IH|].
    intros; simpl; f_equal; lia.
Qed.

Lemma filter_imap_snd (g : Val → bool) (items : list Val) : ∀ t : nat → nat,
  (List.filter (λ p, g p.2) (imap (λ i x, (t i, x)) items)).*2 = List.filter g items.
Proof.
  induction items as [|x items IH]; intros t; simpl; [done|].
  specialize (IH (t ∘ S)). destruct (g x); simpl; by rewrite <-IH.
Qed.

Lemma other_parts_are_the_non_audio_parts (items : list Val) tagged audioParts :
  elements (JArr items) = Return tagged →
  filterR (λ p, is_audio_part p.2) tagged = Return audioParts →
  (List.filter (λ p, negb (includes audioParts p)) tagged).*2
  = List.filter (λ v, negb (is_audio v)) items.
Proof.
  simpl. intros [= <-] Hsel. apply filterR_Return in Hsel as ->.
  rewrite <-(filter_imap_snd (λ v, negb (is_audio v)) items id).
  f_equal. apply filter_ext_in. intros p Hp. f_equal.
  apply (includes_filter (λ p, is_audio p.2)); [apply (imap_positions items 0)|].
  by apply list_elem_of_In.
Qed.
End Includes.

(** *** The methods, one by one *)

Section ClientProps.
Context `{Platform}.

Lemma early_send a w :
  is_send a = true → flag w = false →
  perform a w = (w, [Console Warn (early_warning a)], Return tt).
Proof.
  unfold flag. intros Ha Hw.
  destruct a; try done; simpl;
    unfold sendAudio, sendImage, sendText, sendToolResponse; exec; by rewrite Hw.
Qed.

(** C5.  Whatever run of sendText, sendAudio, sendImage and
    sendToolResponse calls is made while the handshake-complete flag is
    false, each call only prints its warning: the world (client, sockets
    and promises) is what it was, nothing is handed to a socket and every
    call returns without throwing. *)
Theorem sends_before_handshake_are_warnings cmds : ∀ w,
  Forall (λ a, is_send a = true) cmds → flag w = false →
  run cmds w = (w, (λ a, Console Warn (early_warning a)) <$> cmds,
                (λ _, Return tt) <$> cmds)
  ∧ sent (run cmds w).1.2 = [].
Proof.
  induction cmds as [|a cmds IH]; intros w Hs Hw; [done|].
  inversion Hs as [|?? Ha Hs']; subst.
  destruct (IH w Hs' Hw) as [IH1 IH2].
  simpl. rewrite (early_send a w Ha Hw), IH1. split; [done|].
  rewrite IH1 in IH2. done.
Qed.

Lemma sendJSON_early json w :
  flag w = false →
  sendJSON json w = (w, [Console Warn "Attempted to send JSON before setup completed."], Return tt).
Proof. unfold flag. intros Hw. unfold sendJSON. exec. by rewrite Hw. Qed.

Lemma sendJSON_ws_null json w :
  flag w = true → ws (this w) = None →
  sendJSON json w =
    (w, [Console Error ("[" +:+ name (this w) +:+ "] WebSocket is null. Cannot send message:");
         Console Error ("Error sending message: " +:+
                        exn_to_string (JsError (ws_null_message json (name (this w)))))],
     Throw (transport_absent json (name (this w)))).
Proof.
  unfold flag. intros Hw Hws. unfold sendJSON. exec. rewrite Hw. exec. by rewrite Hws.
Qed.

Lemma sendJSON_open json w sid k :
  flag w = true → ws (this w) = Some sid → sockets w !! sid = Some k →
  readyState k = OPEN →
  sendJSON json w =
    (w, [Send sid json; Console Debug ("JSON Object was sent to " +:+ name (this w) +:+ ":")],
     Return tt).
Proof.
  unfold flag. intros Hw Hws Hk Ho. unfold sendJSON, ws_readyState. exec.
  rewrite Hw. exec. rewrite Hws. exec. rewrite Hws. cbn. rewrite Hk. cbn. rewrite Ho. done.
Qed.

Lemma on_open_early w sid k :
  sockets w !! sid = Some k → flag w = false →
  ∃ w', perform (WsOpen sid) w =
          (w', [Console Info "🔗 Successfully connected to websocket";
                Console Warn "Attempted to send JSON before setup completed.";
                Console Debug "Setup message with the following configuration was sent:"],
           Return tt)
        ∧ flag w' = false
        ∧ (promises w !! settles k = Some Pending → promises w' !! settles k = Some Fulfilled).
Proof.
  unfold flag. intros Hk Hw. simpl. unfold dispatched. rewrite Hk.
  unfold on_open, browser_sets, resolve, settle, sendJSON. exec.
  rewrite Hw. cbn. rewrite list_lookup_alter_eq, Hk. cbn.
  destruct (promises w !! settles k) as [[| |]|] eqn:Hp; cbn;
    (eexists; split; [reflexivity|]; split; [done|]); try done.
  intros _. cbn. apply list_lookup_insert_eq. by eapply lookup_lt_Some.
Qed.

Lemma disconnect_before_open_is_noop w sid k r ev :
  ws (this w) = None → isConnecting (this w) = true →
  sockets w !! sid = Some k → promises w !! settles k = Some Pending →
  disconnect w = (w, [], Return tt)
  ∧ promises w !! settles k = Some Pending
  ∧ promises (world_of (perform (WsOpen sid) w)) !! settles k = Some Fulfilled
  ∧ promises (world_of (perform (WsError sid r) w)) !! settles k
    = Some (Rejected (ErrorEvent r))
  ∧ promises (world_of (perform (WsClose sid ev) w)) !! settles k
    = Some (Rejected (JsError (closed_during_connect_message ev))).
Proof.
  intros Hws Hc Hk Hp.
  assert (Hlt : settles k < length (promises w)) by by eapply lookup_lt_Some.
  repeat split.
  - unfold disconnect. exec. by rewrite Hws.
  - done.
  - simpl. unfold dispatched. rewrite Hk.
    unfold on_open, browser_sets, resolve, settle, sendJSON, ws_readyState. exec.
    destruct (_isSetupComplete (this w)); cbn;
      look_up Hk Hp;
      by apply list_lookup_insert_eq.
  - simpl. unfold dispatched. rewrite Hk.
    unfold on_error, browser_sets, disconnect, url_of, reject, settle, ws_close. exec.
    rewrite Hws. cbn.
    look_up Hk Hp.
    by apply list_lookup_insert_eq.
  - simpl. unfold dispatched. rewrite Hk.
    unfold on_close, browser_sets, disconnect, reject, settle, ws_close. exec.
    rewrite Hws. cbn.
    destruct (authFailure ev); cbn; rewrite Hc; cbn;
      look_up Hk Hp;
      by apply list_lookup_insert_eq.
Qed.

Lemma on_close_events w sid ev :
  events (effects_of (on_close sid ev w)) =
  if authFailure ev then ["auth_failed"; "error"] else ["disconnected"].
Proof.
  unfold on_close, browser_sets, disconnect, reject, settle, ws_close. exec.
  destruct (ws (this w)); cbn; destruct (authFailure ev); cbn;
    destruct (isConnecting (this w)); cbn; repeat case_match; by simplify_eq.
Qed.



Lemma set_flag_id w : flag w = true → set_this (set_isSetupComplete true (this w)) w = w.
Proof. destruct w as [[]]. unfold flag. cbn. by intros ->. Qed.

Lemma receive_SetupComplete w response :
  is_SetupComplete response = true →
  receive response w =
    (set_this (set_isSetupComplete true (this w)) w, [Emit "setupComplete" []], Return tt).
Proof.
  unfold is_SetupComplete. intros E. unfold receive, prop.
  destruct (get response "toolCall") as [toolCall|] eqn:E1; [|done].
  destruct (get response "setupComplete") as [setupComplete|] eqn:E2; [|done].
  apply andb_prop in E as [Etc Esc]. apply negb_true_iff in Etc.
  exec. rewrite Etc. exec. by rewrite Esc.
Qed.

(** C4 (as amended).  Every SetupComplete frame sets the flag and
    publishes one setupComplete event; on a client whose flag is set
    already it changes nothing else, and no run of actions afterwards
    clears the flag. *)
Theorem setupComplete_honoured_every_time w response :
  is_SetupComplete response = true →
  receive response w =
    (set_this (set_isSetupComplete true (this w)) w, [Emit "setupComplete" []], Return tt)
  ∧ flag (world_of (receive response w)) = true
  ∧ (flag w = true → world_of (receive response w) = w)
  ∧ (∀ actions, flag (run actions (world_of (receive response w))).1.1 = true).
Proof.
  intros E. rewrite (receive_SetupComplete w response E). cbn.
  repeat split.
  - apply set_flag_id.
  - intros actions. by apply once_run.
Qed.

(** C6 (as amended).  A tool result with an id and neither output nor
    error: before the handshake is complete the call prints the warning
    and returns; once it is complete the call throws the missing-output
    error, whatever the socket.  With the handshake complete and the
    socket open, an error result and an output result are both sent, in
    envelopes that differ. *)
Theorem tool_result_validation w1 w2 w3 sid k :
  flag w1 = false → flag w2 = true →
  flag w3 = true → ws (this w3) = Some sid → sockets w3 !! sid = Some k →
  readyState k = OPEN →
  sendToolResponse (tool_result []) w1
    = (w1, [Console Warn "Attempted to send tool response before setup completed."],
       Return tt)
  ∧ sendToolResponse (tool_result []) w2 = (w2, [], Throw (JsError no_output_message))
  ∧ (result_of (sendToolResponse (tool_result [("error", JStr "x")]) w3) = Return tt
     ∧ sent (effects_of (sendToolResponse (tool_result [("error", JStr "x")]) w3))
       = [(sid, tool_envelope [function_response "error" (JStr "x") (JStr "t1")])])
  ∧ (result_of (sendToolResponse (tool_result [("output", JStr "y")]) w3) = Return tt
     ∧ sent (effects_of (sendToolResponse (tool_result [("output", JStr "y")]) w3))
       = [(sid, tool_envelope [function_response "output" (JStr "y") (JStr "t1")])])
  ∧ tool_envelope [function_response "error" (JStr "x") (JStr "t1")]
    ≠ tool_envelope [function_response "output" (JStr "y") (JStr "t1")].
Proof.
  intros H1 H2 H3 Hws Hk Ho.
  split; [|split; [|split; [|split]]].
  - apply (early_send (SendToolResponse _) w1); done.
  - unfold sendToolResponse. exec. unfold flag in H2. by rewrite H2.
  - unfold sendToolResponse. exec. unfold flag in H3. rewrite H3. cbn.
    by rewrite (sendJSON_open _ w3 sid k).
  - unfold sendToolResponse. exec. unfold flag in H3. rewrite H3. cbn.
    by rewrite (sendJSON_open _ w3 sid k).
  - done.
Qed.


Lemma flag_set_only_by_SetupComplete a w :
  flag w = false → flag (world_of (perform a w)) = true →
  ∃ sid response, a = WsMessage sid (Blob (Some response))
                  ∧ is_SetupComplete response = true.
Proof.
  intros Hw Hw'.
  assert (Hother : (∀ sid response, a = WsMessage sid (Blob (Some response)) →
                                    is_SetupComplete response = false) → False).
  { intros Hno. pose proof (keeps_perform eq a Hno w) as Hk. congruence. }
  destruct a as [| | | | | | | | |sid [[response|]|]|]; try (by destruct Hother).
  destruct (is_SetupComplete response) eqn:E; [by eauto|].
  destruct Hother. by intros ?? [= _ ->].
Qed.

Lemma flag_set_only_by_a_SetupComplete actions : ∀ w,
  flag w = false → flag (run actions w).1.1 = true →
  ∃ sid response, WsMessage sid (Blob (Some response)) ∈ actions
                  ∧ is_SetupComplete response = true.
Proof.
  induction actions as [|a actions IH]; intros w Hw Hw'; simpl in *; [congruence|].
  destruct (perform a w) as [[w1 t1] r1] eqn:Ha.
  destruct (run actions w1) as [[w2 t2] rs] eqn:Hr. simpl in *.
  destruct (flag w1) eqn:Hw1.
  - destruct (flag_set_only_by_SetupComplete a w Hw) as (sid & response & -> & E).
    { by rewrite Ha. }
    exists sid, response. split; [left | done].
  - destruct (IH w1 Hw1) as (sid & response & Hin & E).
    { by rewrite Hr. }
    exists sid, response. split; [by right | done].
Qed.

Lemma disconnect_leaves w :
  ws (this (world_of (disconnect w))) = None
  ∧ flag (world_of (disconnect w)) = flag w
  ∧ name (this (world_of (disconnect w))) = name (this w).
Proof.
  unfold disconnect, ws_close. exec. destruct (ws (this w)) eqn:E; cbn; done.
Qed.

Lemma send_without_transport a w :
  flag w = true → ws (this w) = None → builds_frame a = true →
  ∃ json, result_of (perform a w) = Throw (transport_absent json (name (this w)))
          ∧ sent (effects_of (perform a w)) = [].
Proof.
  intros Hw Hws Ha. pose proof Hw as Hf. unfold flag in Hf.
  destruct a; try done; simpl in *.
  - unfold sendAudio. exec. rewrite Hf. cbn. rewrite sendJSON_ws_null by done. by eexists.
  - unfold sendImage. exec. rewrite Hf. cbn. rewrite sendJSON_ws_null by done. by eexists.
  - unfold sendText. exec. rewrite Hf. cbn. rewrite sendJSON_ws_null by done. by eexists.
  - unfold accepted_tool_response in Ha. unfold sendToolResponse, prop.
    apply andb_prop in Ha as [Ht Ha]. exec. rewrite Hf, Ht. cbn.
    destruct (get toolResponse "id") as [id|]; [|done].
    destruct (get toolResponse "output") as [output|]; [|done].
    destruct (get toolResponse "error") as [err|]; [|done].
    apply andb_prop in Ha as [Hid Ha]. cbn. rewrite Hid. cbn.
    destruct (truthy err); cbn.
    + rewrite sendJSON_ws_null by done. by eexists.
    + destruct output; try done; cbn; rewrite sendJSON_ws_null by done; by eexists.
  - rewrite sendJSON_ws_null by done. by eexists.
Qed.

(** C10.  On a page that started fresh, a set flag means a SetupComplete
    frame was received; nothing that happens later clears it, disconnect
    included; and after disconnect every send that builds a frame throws
    sendJSON's socket-is-null error and hands nothing to a socket. *)
Theorem flag_outlives_disconnect name url config apiKey actions :
  let w := (run actions (fresh name url config apiKey)).1.1 in
  flag w = true →
  (∃ sid response, WsMessage sid (Blob (Some response)) ∈ actions
                   ∧ is_SetupComplete response = true)
  ∧ (∀ more, flag (run more w).1.1 = true)
  ∧ (let w' := world_of (disconnect w) in
     ws (this w') = None ∧ flag w' = true
     ∧ ∀ a, builds_frame a = true →
         ∃ json, result_of (perform a w') = Throw (transport_absent json (Client.name (this w)))
                 ∧ sent (effects_of (perform a w')) = []).
Proof.
  intros w Hw. split; [|split].
  - by apply (flag_set_only_by_a_SetupComplete actions (fresh name url config apiKey)).
  - intros more. by apply once_run.
  - destruct (disconnect_leaves w) as (Hws & Hfl & Hn). cbn zeta.
    split; [done|]. split; [congruence|]. intros a Ha. rewrite <-Hn.
    apply send_without_transport; [congruence | done | done].
Qed.



Lemma run_two a b w :
  (run [a; b] w).1.2
  = effects_of (perform a w) ++ effects_of (perform b (world_of (perform a w))).
Proof.
  cbn [run]. destruct (perform a w) as [[w1 t1] r1]. cbn [world_of effects_of fst snd].
  destruct (perform b w1) as [[w2 t2] r2]. cbn [world_of effects_of fst snd].
  by rewrite app_nil_r.
Qed.

Lemma perform_Connect w :
  world_of (perform Connect w) = world_of (connect w)
  ∧ effects_of (perform Connect w) = effects_of (connect w).
Proof.
  simpl. unfold mbind, M_bind, mret, M_ret.
  destruct (connect w) as [[w1 t1] [p|e]]; simpl; by rewrite ?app_nil_r.
Qed.

Lemma connect_starts w key u :
  can_connect w key u →
  ∃ w1, connect w = (w1, [Console Info "🔗 Establishing WebSocket connection..."],
                     Return (Follows (length (promises w))))
        ∧ sockets w1 !! length (sockets w)
          = Some (mkSocket u CONNECTING (length (promises w)))
        ∧ promises w1 !! length (promises w) = Some Pending
        ∧ ws (this w1) = None ∧ isConnecting (this w1) = true ∧ flag w1 = flag w.
Proof.
  intros (Hws & Hc & Hkey & Hne & Hu & Hacc).
  unfold connect, ws_readyState, new_connection. exec.
  rewrite Hws. cbn. rewrite Hc. cbn. rewrite Hkey.
  destruct key as [|c key]; [done|]. cbn. rewrite Hu. cbn. rewrite Hacc. cbn.
  eexists. split; [reflexivity|]. cbn.
  split; [by apply list_lookup_middle|]. split; [by apply list_lookup_middle|]. done.
Qed.

(** C1 (where the code departs from it).  A connect attempt made
    before any handshake has completed: when the socket opens, the
    setup frame stops at sendJSON's own readiness test, which prints the
    too-early warning; nothing is handed to the socket. *)
Theorem first_open_sends_no_setup_frame w key u :
  can_connect w key u → flag w = false →
  sent (run [Connect; WsOpen (length (sockets w))] w).1.2 = []
  ∧ Console Warn "Attempted to send JSON before setup completed."
    ∈ (run [Connect; WsOpen (length (sockets w))] w).1.2.
Proof.
  intros Hcan Hw.
  destruct (connect_starts w key u Hcan) as (w1 & Hc & Hs & Hp & _ & _ & Hf).
  destruct (on_open_early w1 _ _ Hs) as (w2 & Ho & _); [congruence|].
  rewrite run_two. destruct (perform_Connect w) as [-> ->]. rewrite Hc.
  cbn [world_of effects_of fst snd]. rewrite Ho. cbn.
  split; [done|]. do 2 apply list_elem_of_further. apply list_elem_of_here.
Qed.

(** C2 (where the code departs from it).  The promise connect returns
    is pending after the call and fulfilled by the socket's open event
    alone, the handshake-complete flag being false still: no
    SetupComplete frame has been received. *)
Theorem open_fulfils_connect_before_SetupComplete w key u :
  can_connect w key u → flag w = false →
  let w1 := world_of (connect w) in
  let w2 := world_of (perform (WsOpen (length (sockets w))) w1) in
  ∃ p, result_of (connect w) = Return p
       ∧ state_of w1 p = Pending
       ∧ state_of w2 p = Fulfilled
       ∧ flag w2 = false.
Proof.
  intros Hcan Hw.
  destruct (connect_starts w key u Hcan) as (w1 & Hc & Hs & Hp & _ & _ & Hf).
  destruct (on_open_early w1 _ _ Hs) as (w2 & Ho & Hf2 & Hp2); [congruence|].
  rewrite Hc. cbn [world_of effects_of result_of fst snd]. rewrite Ho.
  cbn [world_of effects_of result_of fst snd].
  exists (Follows (length (promises w))). cbn in Hp2. cbn [state_of].
  split; [done|]. split; [by rewrite Hp|]. split; [by rewrite (Hp2 Hp) | done].
Qed.


End ClientProps.

(** ** The properties, on the example page *)

Section Examples.
Import Scenario.

Lemma page_can_connect : can_connect page "K" "wss://example.test/live?key=K".
Proof. repeat split. Defined.

Lemma first_open_sends_no_setup_frame_witness :
  can_connect page "K" "wss://example.test/live?key=K" ∧ flag page = false
  ∧ sent (run [Connect; WsOpen 0] page).1.2 = []
  ∧ Console Warn "Attempted to send JSON before setup completed."
    ∈ (run [Connect; WsOpen 0] page).1.2.
Proof.
  split; [exact page_can_connect|]. split; [reflexivity|].
  exact (first_open_sends_no_setup_frame page "K" "wss://example.test/live?key=K"
           page_can_connect eq_refl).
Defined.

Lemma open_fulfils_connect_witness :
  can_connect page "K" "wss://example.test/live?key=K" ∧ flag page = false
  ∧ ∃ p, result_of (connect page) = Return p
         ∧ state_of (world_of (connect page)) p = Pending
         ∧ state_of (world_of (perform (WsOpen 0) (world_of (connect page)))) p = Fulfilled
         ∧ flag (world_of (perform (WsOpen 0) (world_of (connect page)))) = false.
Proof.
  split; [exact page_can_connect|]. split; [reflexivity|].
  exact (open_fulfils_connect_before_SetupComplete page "K" "wss://example.test/live?key=K"
           page_can_connect eq_refl).
Defined.



Lemma setupComplete_honoured_witness :
  is_SetupComplete setupComplete_frame = true
  ∧ receive setupComplete_frame ready
    = (set_this (set_isSetupComplete true (this ready)) ready,
       [Emit "setupComplete" []], Return tt)
  ∧ flag (world_of (receive setupComplete_frame ready)) = true
  ∧ (flag ready = true → world_of (receive setupComplete_frame ready) = ready)
  ∧ (∀ actions, flag (run actions (world_of (receive setupComplete_frame ready))).1.1 = true).
Proof.
  split; [reflexivity|].
  exact (setupComplete_honoured_every_time ready setupComplete_frame eq_refl).
Defined.

(** C4 as stated fails: a second SetupComplete frame on the same
    connection is not ignored, it publishes setupComplete again. *)
Lemma second_SetupComplete_is_published :
  flag ready = true
  ∧ events (effects_of (perform (WsMessage 0 (Blob (Some setupComplete_frame))) ready))
    ≠ [].
Proof. split; [reflexivity|]. vm_compute. discriminate. Qed.

Lemma sends_before_handshake_witness :
  Forall (λ a, is_send a = true)
    [SendText "hi" None; SendAudio "AAAA"; SendImage "/9j/"; SendToolResponse JNull]
  ∧ flag connecting = false
  ∧ run [SendText "hi" None; SendAudio "AAAA"; SendImage "/9j/"; SendToolResponse JNull]
      connecting
    = (connecting,
       (λ a, Console Warn (early_warning a))
         <$> [SendText "hi" None; SendAudio "AAAA"; SendImage "/9j/";
              SendToolResponse JNull],
       (λ _, Return tt)
         <$> [SendText "hi" None; SendAudio "AAAA"; SendImage "/9j/";
              SendToolResponse JNull])
  ∧ sent (run [SendText "hi" None; SendAudio "AAAA"; SendImage "/9j/";
               SendToolResponse JNull] connecting).1.2 = [].
Proof.
  assert (Hs : Forall (λ a, is_send a = true)
                 [SendText "hi" None; SendAudio "AAAA"; SendImage "/9j/";
                  SendToolResponse JNull]) by (repeat constructor).
  split; [exact Hs|]. split; [reflexivity|].
  exact (sends_before_handshake_are_warnings _ connecting Hs eq_refl).
Defined.

Lemma tool_result_validation_witness :
  flag connecting = false ∧ flag ready = true ∧ ws (this ready) = Some 0
  ∧ sockets ready !! 0 = Some (mkSocket "wss://example.test/live?key=K" OPEN 0)
  ∧ sendToolResponse (tool_result []) connecting
    = (connecting, [Console Warn "Attempted to send tool response before setup completed."],
       Return tt)
  ∧ sendToolResponse (tool_result []) ready = (ready, [], Throw (JsError no_output_message))
  ∧ (result_of (sendToolResponse (tool_result [("error", JStr "x")]) ready) = Return tt
     ∧ sent (effects_of (sendToolResponse (tool_result [("error", JStr "x")]) ready))
       = [(0, tool_envelope [function_response "error" (JStr "x") (JStr "t1")])])
  ∧ (result_of (sendToolResponse (tool_result [("output", JStr "y")]) ready) = Return tt
     ∧ sent (effects_of (sendToolResponse (tool_result [("output", JStr "y")]) ready))
       = [(0, tool_envelope [function_response "output" (JStr "y") (JStr "t1")])])
  ∧ tool_envelope [function_response "error" (JStr "x") (JStr "t1")]
    ≠ tool_envelope [function_response "output" (JStr "y") (JStr "t1")].
Proof.
  do 4 (split; [reflexivity|]).
  exact (tool_result_validation connecting ready ready 0
           (mkSocket "wss://example.test/live?key=K" OPEN 0)
           eq_refl eq_refl eq_refl eq_refl eq_refl eq_refl).
Defined.

(** C6 as stated fails: before the handshake is complete, a tool result
    without output and error raises nothing. *)
Lemma early_invalid_tool_result_raises_nothing :
  flag connecting = false
  ∧ ¬ ∃ e, result_of (sendToolResponse (tool_result []) connecting) = Throw e.
Proof. split; [reflexivity|]. intros [e He]. vm_compute in He. discriminate He. Qed.




(** C8 as stated fails: disconnect called while connect is pending does
    not reject the promise connect returned. *)
Lemma disconnect_leaves_connect_pending :
  result_of (connect page) = Return (Follows 0)
  ∧ ¬ ∃ e, state_of (run [Connect; Disconnect] page).1.1 (Follows 0) = Rejected e.
Proof. split; [reflexivity|]. intros [e He]. vm_compute in He. discriminate He. Qed.

Lemma flag_outlives_disconnect_witness :
  flag ready = true
  ∧ (∃ sid response,
       WsMessage sid (Blob (Some response))
         ∈ [Connect; WsOpen 0; WsMessage 0 (Blob (Some setupComplete_frame))]
       ∧ is_SetupComplete response = true)
  ∧ (∀ more, flag (run more ready).1.1 = true)
  ∧ ws (this (world_of (disconnect ready))) = None
  ∧ flag (world_of (disconnect ready)) = true
  ∧ ∀ a, builds_frame a = true →
      ∃ json, result_of (perform a (world_of (disconnect ready)))
              = Throw (transport_absent json (name (this ready)))
              ∧ sent (effects_of (perform a (world_of (disconnect ready)))) = [].
Proof.
  split; [reflexivity|].
  exact (flag_outlives_disconnect "live" "wss://example.test/live"
           (JObj [("model", JStr "m")]) (Some "K")
           [Connect; WsOpen 0; WsMessage 0 (Blob (Some setupComplete_frame))] eq_refl).
Defined.

End Examples.

(* ===================================================================== *)
(** * Part III: further properties *)
(* ===================================================================== *)

Import Further.

(** ** Connecting, disconnecting, closing *)

Section Connection.
Context `{Platform}.

Lemma connect_attempt w key u :
  can_connect w key u →
  connect w = (attempt w u, [Console Info "🔗 Establishing WebSocket connection..."],
               Return (Follows (length (promises w)))).
Proof.
  intros (Hws & Hc & Hkey & Hne & Hu & Hacc).
  unfold connect, ws_readyState, new_connection. exec.
  rewrite Hws. cbn. rewrite Hc. cbn. rewrite Hkey.
  destruct key as [|c key]; [done|]. cbn. rewrite Hu. cbn. by rewrite Hacc.
Qed.

Lemma connect_when_open w sid k :
  ws (this w) = Some sid → sockets w !! sid = Some k → readyState k = OPEN →
  connect w = (w, [], Return (returned_promise (connectionPromise (this w)))).
Proof.
  intros Hws Hk Ho. unfold connect, ws_readyState. exec.
  rewrite Hws. cbn. rewrite Hk. cbn. by rewrite Ho.
Qed.

Lemma on_open_holds w sid k :
  sockets w !! sid = Some k →
  let w2 := world_of (perform (WsOpen sid) w) in
  ws (this w2) = Some sid ∧ sockets w2 !! sid = Some (set_readyState OPEN k)
  ∧ isConnecting (this w2) = false
  ∧ connectionPromise (this w2) = connectionPromise (this w)
  ∧ flag w2 = flag w.
Proof.
  intros Hk. cbn [perform]. unfold dispatched. rewrite Hk.
  assert (Hlk : alter (set_readyState OPEN) sid (sockets w) !! sid
                = Some (set_readyState OPEN k)).
  { by rewrite list_lookup_alter_eq, Hk. }
  unfold on_open, browser_sets, resolve, settle, sendJSON, ws_readyState. exec.
  destruct (_isSetupComplete (this w)) eqn:Hf; repeat (progress (cbn; rewrite ?Hlk));
    destruct (promises w !! settles k) as [[| |]|];
    repeat (progress (cbn; rewrite ?Hlk)); done.
Qed.

(** X1.  While an attempt is under way, and once its socket is open,
    another [connect()] makes no socket, does nothing to the outside and
    hands back the promise of the attempt. *)
Theorem connect_collapses_onto_the_attempt w key u :
  can_connect w key u →
  let w1 := world_of (connect w) in
  length (sockets w1) = S (length (sockets w))
  ∧ connect w1 = (w1, [], result_of (connect w))
  ∧ (let w2 := world_of (perform (WsOpen (length (sockets w))) w1) in
     connect w2 = (w2, [], result_of (connect w))).
Proof.
  intros Hcan. rewrite (connect_attempt w key u Hcan). cbn [world_of result_of fst snd].
  split; [|split].
  - cbn. rewrite length_app. cbn. lia.
  - unfold connect, ws_readyState. exec. destruct Hcan as (-> & _). done.
  - assert (Hk : sockets (attempt w u) !! length (sockets w)
                 = Some (mkSocket u CONNECTING (length (promises w)))).
    { by apply list_lookup_middle. }
    destruct (on_open_holds _ _ _ Hk) as (Hws & Hs & _ & Hp & _).
    cbn zeta. erewrite connect_when_open; [|exact Hws|exact Hs|done].
    by rewrite Hp.
Qed.

(** X2.  With no key in local storage (none, or an empty one), and
    with an address the [URL] constructor refuses, [connect()] prints and
    publishes the error and returns a rejected promise; it makes no
    socket and leaves the client as it was. *)
Theorem connect_fails_fast w :
  ws (this w) = None → isConnecting (this w) = false →
  ((deepgramApiKey w = None ∨ deepgramApiKey w = Some EmptyString) →
   connect w = (w, [Console Error no_key_message;
                    Emit "error" [AVal (JStr no_key_message)]],
                Return (Settled (Rejected (JsError no_key_message)))))
  ∧ (∀ key, deepgramApiKey w = Some key → is_empty key = false →
       wsUrl (url (this w)) key = None →
       connect w = (w, [Console Error "Invalid WebSocket URL:";
                        Emit "error" [AVal (JStr "Invalid WebSocket URL")]],
                    Return (Settled (Rejected (TypeError "Invalid URL"))))).
Proof.
  intros Hws Hc. split.
  - intros Hkey. unfold connect, ws_readyState. exec. rewrite Hws. cbn. rewrite Hc. cbn.
    by destruct Hkey as [-> | ->].
  - intros key Hkey Hne Hu. unfold connect, ws_readyState. exec.
    rewrite Hws. cbn. rewrite Hc. cbn. rewrite Hkey.
    destruct key as [|c key]; [done|]. cbn. by rewrite Hu.
Qed.

Lemma disconnect_holding w sid :
  ws (this w) = Some sid →
  disconnect w = (torn_down w sid,
                  [Close sid;
                   Console Info (name (this w) +:+ " successfully disconnected from websocket")],
                  Return tt).
Proof. intros Hws. unfold disconnect, ws_close. exec. by rewrite Hws. Qed.

Lemma disconnect_idle w : ws (this w) = None → disconnect w = (w, [], Return tt).
Proof. intros Hws. unfold disconnect. exec. by rewrite Hws. Qed.

(** X3.  [disconnect()] on a client that holds a socket closes that
    socket, forgets it and the promise, and touches neither a promise nor
    the handshake-complete flag; called again at once it does nothing. *)
Theorem disconnect_tears_down_once w sid k :
  ws (this w) = Some sid → sockets w !! sid = Some k →
  let w1 := world_of (disconnect w) in
  effects_of (disconnect w)
  = [Close sid; Console Info (name (this w) +:+ " successfully disconnected from websocket")]
  ∧ ws (this w1) = None ∧ isConnecting (this w1) = false
  ∧ connectionPromise (this w1) = None
  ∧ promises w1 = promises w ∧ flag w1 = flag w
  ∧ (readyState <$> sockets w1 !! sid)
    = Some (match readyState k with CONNECTING | OPEN => CLOSING | s => s end)
  ∧ disconnect w1 = (w1, [], Return tt).
Proof.
  intros Hws Hk. rewrite (disconnect_holding w sid Hws). cbn [world_of effects_of fst snd].
  repeat split.
  cbn. rewrite list_lookup_alter_eq, Hk. cbn.
  destruct (readyState k) eqn:E; cbn; by rewrite ?E.
Qed.

(** X4.  On a client whose flag was set by an earlier handshake, the
    open event of a new connection does hand over the setup frame, with
    the configuration of the client, before anything else. *)
Theorem reconnect_sends_setup w key u :
  can_connect w key u → flag w = true →
  (run [Connect; WsOpen (length (sockets w))] w).1.2
  = [Console Info "🔗 Establishing WebSocket connection...";
     Console Info "🔗 Successfully connected to websocket";
     Send (length (sockets w)) (JObj [("setup", config (this w))]);
     Console Debug ("JSON Object was sent to " +:+ name (this w) +:+ ":");
     Console Debug "Setup message with the following configuration was sent:"].
Proof.
  intros Hcan Hf. rewrite run_two. destruct (perform_Connect w) as [-> ->].
  rewrite (connect_attempt w key u Hcan). cbn [world_of effects_of fst snd].
  assert (Hk : sockets (attempt w u) !! length (sockets w)
               = Some (mkSocket u CONNECTING (length (promises w)))).
  { by apply list_lookup_middle. }
  cbn [perform]. unfold dispatched. rewrite Hk.
  assert (Hlk : alter (set_readyState OPEN) (length (sockets w)) (sockets (attempt w u))
                  !! length (sockets w)
                = Some (mkSocket u OPEN (length (promises w)))).
  { by rewrite list_lookup_alter_eq, Hk. }
  cbn in Hlk. unfold flag in Hf.
  unfold on_open, browser_sets, resolve, settle, sendJSON, ws_readyState. exec.
  rewrite Hf. repeat (progress (cbn; rewrite ?Hlk)).
  repeat case_match; by simplify_eq.
Qed.

Lemma on_close_holding w old cur k ev :
  ws (this w) = Some cur → sockets w !! old = Some k →
  perform (WsClose old ev) w
  = (torn_down (set_sockets (alter (set_readyState CLOSED) old (sockets w)) w) cur,
     Console Warn (closed_message ev) :: Close cur
       :: Console Info (name (this w) +:+ " successfully disconnected from websocket")
       :: close_report ev,
     Return tt).
Proof.
  intros Hws Hk. cbn [perform]. unfold dispatched. rewrite Hk.
  unfold on_close, browser_sets, disconnect, ws_close, close_report. exec.
  rewrite Hws. cbn. by destruct (authFailure ev).
Qed.

(** X5.  The close handler of any socket of the client disconnects the
    socket the client holds at that moment: when an earlier socket
    closes late, the current open one is closed and forgotten. *)
Theorem close_of_any_socket_drops_the_held_one w old cur k kc ev :
  ws (this w) = Some cur → sockets w !! old = Some k → old ≠ cur →
  sockets w !! cur = Some kc → readyState kc = OPEN →
  let w1 := world_of (perform (WsClose old ev) w) in
  Close cur ∈ effects_of (perform (WsClose old ev) w)
  ∧ ws (this w1) = None ∧ connectionPromise (this w1) = None
  ∧ (readyState <$> sockets w1 !! cur) = Some CLOSING.
Proof.
  intros Hws Hk Hne Hkc Ho. rewrite (on_close_holding w old cur k ev Hws Hk).
  cbn [world_of effects_of fst snd]. repeat split.
  - apply list_elem_of_further, list_elem_of_here.
  - cbn. rewrite list_lookup_alter_eq, list_lookup_alter_ne, Hkc by done. cbn.
    by rewrite Ho.
Qed.

(** X6.  When the held socket closes, no promise changes, the client
    is idle again, and the next [connect()] opens a new socket with a new
    promise. *)
Theorem close_after_open_allows_reconnect w sid k ev key u :
  ws (this w) = Some sid → sockets w !! sid = Some k →
  deepgramApiKey w = Some key → is_empty key = false →
  wsUrl (url (this w)) key = Some u → webSocketAccepts u = true →
  let w1 := world_of (perform (WsClose sid ev) w) in
  promises w1 = promises w
  ∧ (readyState <$> sockets w1 !! sid) = Some CLOSED
  ∧ can_connect w1 key u
  ∧ result_of (connect w1) = Return (Follows (length (promises w)))
  ∧ length (sockets (world_of (connect w1))) = S (length (sockets w)).
Proof.
  intros Hws Hk Hkey Hne Hu Hacc. rewrite (on_close_holding w sid sid k ev Hws Hk).
  cbn [world_of fst snd].
  set (w1 := torn_down _ sid).
  assert (Hcan : can_connect w1 key u) by done.
  split; [done|]. split.
  { subst w1. cbn. by rewrite !list_lookup_alter_eq, Hk. }
  split; [done|]. rewrite (connect_attempt w1 key u Hcan). cbn. split; [done|].
  rewrite length_app, !length_alter. cbn. lia.
Qed.

Lemma on_error_pending w sid k r :
  ws (this w) = None → sockets w !! sid = Some k →
  promises w !! settles k = Some Pending →
  perform (WsError sid r) w
  = (set_promises (<[settles k := Rejected (ErrorEvent r)]> (promises w))
       (set_sockets (alter (set_readyState CLOSED) sid (sockets w)) w),
     [Console Error (error_message (sock_url k) r);
      Emit "error" [AVal (JStr (error_message (sock_url k) r))]],
     Return tt).
Proof.
  intros Hws Hk Hp. cbn [perform]. unfold dispatched. rewrite Hk.
  unfold on_error, browser_sets, disconnect, url_of, reject, settle, error_message. exec.
  rewrite Hws. cbn. look_up Hk Hp. by destruct r as [[|]|].
Qed.

Lemma on_close_pending w sid k ev :
  ws (this w) = None → isConnecting (this w) = true → sockets w !! sid = Some k →
  world_of (perform (WsClose sid ev) w)
  = (let w1 := set_this (set_isConnecting false (this w))
                 (set_sockets (alter (set_readyState CLOSED) sid (sockets w)) w) in
     match promises w !! settles k with
     | Some Pending =>
         set_promises (<[settles k := Rejected (JsError (closed_during_connect_message ev))]>
                         (promises w)) w1
     | _ => w1
     end).
Proof.
  intros Hws Hc Hk. cbn [perform]. unfold dispatched. rewrite Hk.
  unfold on_close, browser_sets, disconnect, reject, settle. exec.
  rewrite Hws. cbn.
  destruct (authFailure ev); cbn; rewrite Hc; cbn; rewrite list_lookup_alter_eq, Hk; cbn;
    by destruct (promises w !! settles k) as [[| |]|].
Qed.

End Connection.

(** ** Sending *)

Section Outbound.
Context `{Platform}.


Lemma sendJSON_ready json w sid :
  ready_on w sid →
  sendJSON json w
  = (w, [Send sid json; Console Debug ("JSON Object was sent to " +:+ name (this w) +:+ ":")],
     Return tt).
Proof. intros (Hf & Hws & k & Hk & Ho). by apply (sendJSON_open json w sid k). Qed.


(** X9.  With the handshake complete and the socket open, sendAudio,
    sendImage and sendText each hand exactly one frame to the socket and
    change nothing: the media frames differ in the MIME type only, and a
    text whose end-of-turn is not given closes the turn. *)
Theorem ready_sends_hand_over_one_frame w sid base64 text endOfTurn :
  ready_on w sid →
  (world_of (sendAudio base64 w) = w ∧ result_of (sendAudio base64 w) = Return tt
   ∧ sent (effects_of (sendAudio base64 w)) = [(sid, media_envelope "audio/pcm" base64)])
  ∧ (world_of (sendImage base64 w) = w ∧ result_of (sendImage base64 w) = Return tt
     ∧ sent (effects_of (sendImage base64 w)) = [(sid, media_envelope "image/jpeg" base64)])
  ∧ (world_of (sendText text endOfTurn w) = w
     ∧ result_of (sendText text endOfTurn w) = Return tt
     ∧ sent (effects_of (sendText text endOfTurn w))
       = [(sid, text_envelope text (default true endOfTurn))]).
Proof.
  intros Hr. pose proof Hr as (Hf & _). unfold flag in Hf.
  repeat split; unfold sendAudio, sendImage, sendText; exec; rewrite Hf; cbn;
    by rewrite (sendJSON_ready _ w sid Hr).
Qed.

Lemma truthy_get v k : truthy v = true → get v k = Return (field v k).
Proof. unfold field. by destruct v. Qed.

(** X10.  On a ready client [sendToolResponse] refuses a response that
    is falsy or has no truthy id; otherwise a truthy error is sent as the
    error response whatever the output, an output other than [undefined]
    ([null] included) is sent when the error is falsy, and a missing
    output without error is refused. *)
Theorem tool_response_error_comes_first w sid toolResponse :
  ready_on w sid →
  let id := field toolResponse "id" in
  let output := field toolResponse "output" in
  let error := field toolResponse "error" in
  (truthy toolResponse && truthy id = false →
   sendToolResponse toolResponse w = (w, [], Throw (JsError no_id_message)))
  ∧ (truthy toolResponse && truthy id = true →
     (truthy error = true →
      sent (effects_of (sendToolResponse toolResponse w))
      = [(sid, tool_envelope [function_response "error" error id])])
     ∧ (truthy error = false → output ≠ JUndefined →
        sent (effects_of (sendToolResponse toolResponse w))
        = [(sid, tool_envelope [function_response "output" output id])])
     ∧ (truthy error = false → output = JUndefined →
        sendToolResponse toolResponse w = (w, [], Throw (JsError no_output_message)))).
Proof.
  intros Hr. pose proof Hr as (Hf & _). unfold flag in Hf. cbn zeta. split.
  - intros Hno. unfold sendToolResponse, prop. exec. rewrite Hf. cbn.
    destruct (truthy toolResponse) eqn:Ht; [|done]. cbn.
    rewrite (truthy_get _ "id" Ht). cbn. cbn in Hno. by rewrite Hno.
  - intros Hyes. apply andb_prop in Hyes as [Ht Hid].
    repeat split.
    + intros He. unfold sendToolResponse, prop. exec. rewrite Hf, Ht. cbn.
      rewrite !(truthy_get _ _ Ht). cbn. rewrite Hid. cbn. rewrite He. cbn.
      by rewrite (sendJSON_ready _ w sid Hr).
    + intros He Ho. unfold sendToolResponse, prop. exec. rewrite Hf, Ht. cbn.
      rewrite !(truthy_get _ _ Ht). cbn. rewrite Hid. cbn. rewrite He. cbn.
      destruct (field toolResponse "output"); try done; cbn;
        by rewrite (sendJSON_ready _ w sid Hr).
    + intros He Ho. unfold sendToolResponse, prop. exec. rewrite Hf, Ht. cbn.
      rewrite !(truthy_get _ _ Ht). cbn. rewrite Hid. cbn. rewrite He. cbn.
      by rewrite Ho.
Qed.
End Outbound.


(** ** Receiving *)

Section Inbound.
Context `{Platform}.

Lemma readable_get v k : readable v → get v k = Return (field v k).
Proof. intros [??]. unfold field. by destruct v. Qed.

Lemma truthy_readable v : truthy v = true → readable v.
Proof. by destruct v. Qed.

Lemma field_readable v k : truthy (field v k) = true → readable v.
Proof. by destruct v. Qed.

(** X11.  A frame with a truthy toolCall is published as one tool_call
    event carrying it whole, whatever else the frame holds (a
    setupComplete beside it is not honoured); a truthy
    toolCallCancellation likewise, after toolCall and setupComplete.  The
    world is unchanged. *)
Theorem tool_frames_are_passed_whole w response :
  (truthy (field response "toolCall") = true →
   receive response w
   = (w, [Console Debug (name (this w) +:+ " received tool call");
          Emit "tool_call" [AVal (field response "toolCall")]], Return tt))
  ∧ (truthy (field response "toolCall") = false →
     truthy (field response "setupComplete") = false →
     truthy (field response "toolCallCancellation") = true →
     receive response w
     = (w, [Console Debug (name (this w) +:+ " received tool call cancellation");
            Emit "tool_call_cancellation" [AVal (field response "toolCallCancellation")]],
        Return tt)).
Proof.
  split.
  - intros Ht. pose proof (field_readable _ _ Ht) as Hr.
    unfold receive, prop. rewrite (readable_get _ "toolCall" Hr). exec. by rewrite Ht.
  - intros Ht Hs Hc. pose proof (field_readable _ _ Hc) as Hr.
    unfold receive, prop. rewrite !(readable_get _ _ Hr). exec.
    rewrite Ht. cbn. rewrite Hs. cbn. by rewrite Hc.
Qed.

(** X12.  A serverContent frame that is interrupted publishes
    interrupted and nothing else, whatever turn it carries; one that only
    completes the turn publishes turn_complete alone. *)
Theorem interruption_ends_the_frame w response :
  let serverContent := field response "serverContent" in
  truthy (field response "toolCall") = false →
  truthy (field response "setupComplete") = false →
  truthy (field response "toolCallCancellation") = false →
  truthy serverContent = true →
  (truthy (field serverContent "interrupted") = true →
   receive response w
   = (w, [Console Debug (name (this w) +:+ " is interrupted"); Emit "interrupted" []],
      Return tt))
  ∧ (truthy (field serverContent "interrupted") = false →
     truthy (field serverContent "turnComplete") = true →
     truthy (field serverContent "modelTurn") = false →
     receive response w
     = (w, [Console Debug (name (this w) +:+ " has completed its turn");
            Emit "turn_complete" []], Return tt)).
Proof.
  intros sc Ht Hs Hc Hsc. pose proof (field_readable _ _ Hsc) as Hr.
  pose proof (truthy_readable _ Hsc) as Hr'.
  split.
  - intros Hi. unfold receive, prop. rewrite !(readable_get _ _ Hr). exec.
    rewrite Ht. cbn. rewrite Hs. cbn. rewrite Hc. cbn. fold sc. rewrite Hsc. cbn.
    rewrite (readable_get _ _ Hr'). cbn. by rewrite Hi.
  - intros Hi Htc Hm. unfold receive, prop. rewrite !(readable_get _ _ Hr). exec.
    rewrite Ht. cbn. rewrite Hs. cbn. rewrite Hc. cbn. fold sc. rewrite Hsc. cbn.
    rewrite !(readable_get _ _ Hr'). cbn. rewrite Hi. cbn. rewrite Htc. cbn. by rewrite Hm.
Qed.

(** X13.  A payload that is not a Blob, a Blob that does not decode,
    the frame [null] and a frame with none of the four known keys
    publish nothing and change nothing; the call that handles them ends
    normally. *)
Theorem unusable_payloads_are_dropped w sid k response :
  sockets w !! sid = Some k →
  perform (WsMessage sid NotBlob) w = (w, [Console Error "Non-blob message received"], Return tt)
  ∧ perform (WsMessage sid (Blob None)) w = (w, [], Return tt)
  ∧ perform (WsMessage sid (Blob (Some JNull))) w = (w, [], Return tt)
  ∧ (readable response →
     truthy (field response "toolCall") = false →
     truthy (field response "setupComplete") = false →
     truthy (field response "toolCallCancellation") = false →
     truthy (field response "serverContent") = false →
     perform (WsMessage sid (Blob (Some response))) w
     = (w, [Console Debug (name (this w) +:+ " received unmatched message:")], Return tt)).
Proof.
  intros Hk. cbn [perform]. unfold dispatched. rewrite Hk. repeat split.
  intros Hr Ht Hs Hc Hsc. cbn [on_message]. unfold receive, prop.
  rewrite !(readable_get _ _ Hr). exec.
  rewrite Ht. cbn. rewrite Hs. cbn. rewrite Hc. cbn. by rewrite Hsc.
Qed.

(** *** The parts of a model turn *)

Lemma bind_lift {A B} (r : Result A) (k : A → M B) w :
  (lift r ≫= k) w = match r with Return a => k a w | Throw e => (w, [], Throw e) end.
Proof.
  unfold mbind, M_bind, lift. destruct r as [a|e]; [|done].
  by destruct (k a w) as [[w2 t2] r2].
Qed.

Lemma bind_run {A B} (m : M A) (k : A → M B) w w1 t1 a :
  m w = (w1, t1, Return a) →
  (m ≫= k) w = (world_of (k a w1), t1 ++ effects_of (k a w1), result_of (k a w1)).
Proof.
  intros Hm. unfold mbind, M_bind. rewrite Hm. by destruct (k a w1) as [[w2 t2] r2].
Qed.

Lemma bind_throw {A B} (m : M A) (k : A → M B) w w1 t1 e :
  m w = (w1, t1, Throw e) → (m ≫= k) w = (w1, t1, Throw e).
Proof. intros Hm. unfold mbind, M_bind. by rewrite Hm. Qed.

Lemma filterR_snd {A} (f : A → Result bool) (l : list (nat * A)) :
  filterR (λ p, f p.2) l
  = match filterR f l.*2 with
    | Return _ => Return (List.filter (λ p, picks f p.2) l)
    | Throw e => Throw e
    end.
Proof.
  induction l as [|p l IH]; [done|]. cbn. unfold picks at 1.
  destruct (f p.2) as [b|e]; [|done]. rewrite IH.
  destruct (filterR f l.*2); [|done]. by destruct b.
Qed.

Lemma filterR_total {A} (f : A → Result bool) (l : list A) :
  Forall (λ x, ∃ b, f x = Return b) l → ∃ r, filterR f l = Return r.
Proof.
  induction 1 as [|x l [b Hb] _ [r IH]]; [by eexists|]. cbn. rewrite Hb, IH. by eexists.
Qed.

Lemma forEach_snd {A} (l : list (nat * A)) (F : A → M unit) w :
  forEach l (λ p, F p.2) w = forEach l.*2 F w.
Proof.
  revert w. induction l as [|p l IH]; intros w; [done|]. cbn.
  unfold mbind, M_bind. destruct (F p.2 w) as [[w1 t1] [[]|e]]; [|done]. by rewrite IH.
Qed.

Lemma tagged_snd {A} (items : list A) : (imap (λ i p, (i, p)) items).*2 = items.
Proof.
  change (imap (λ i p, (i, p)) items) with (imap (λ i p, (id i, p)) items).
  generalize (@id nat). induction items as [|x items IH]; intros t; [done|].
  cbn. f_equal. apply (IH (t ∘ S)).
Qed.

Lemma picks_has_text p :
  picks has_text p = true → ∃ t, get p "text" = Return t ∧ truthy t = true.
Proof.
  unfold picks, has_text. destruct (get p "text") as [t|]; [|done].
  destruct (truthy t) eqn:E; [|done]. by exists t.
Qed.

Lemma texts_cons p items :
  texts (p :: items)
  = match get p "text" with
    | Return t => if truthy t then t :: texts items else texts items
    | Throw _ => texts items
    end.
Proof.
  unfold texts. cbn. destruct (get p "text") as [t|]; [|done]. by destruct (truthy t).
Qed.

Lemma forEach_texts (ps : list Val) w :
  Forall (λ p, picks has_text p = true) ps →
  forEach ps (λ p, text ← prop p "text"; emit "text" [AVal text]) w
  = (w, (λ t, Emit "text" [AVal t]) <$> texts ps, Return tt).
Proof.
  induction 1 as [|p ps Hp _ IH]; [done|].
  destruct (picks_has_text p Hp) as (t & Ht & Htt).
  cbn [forEach]. erewrite bind_run; last first.
  { unfold prop. rewrite bind_lift, Ht. reflexivity. }
  by rewrite IH, texts_cons, Ht, Htt.
Qed.

Lemma texts_filter items : texts (List.filter (picks has_text) items) = texts items.
Proof.
  induction items as [|p items IH]; [done|]. cbn [List.filter].
  rewrite (texts_cons p items). unfold picks at 1. unfold has_text at 1.
  destruct (get p "text") as [t|] eqn:Ht; [|done].
  destruct (truthy t) eqn:Htt; [|done].
  by rewrite texts_cons, Ht, Htt, IH.
Qed.

Lemma forEach_audio (b64s : list Val) w :
  forEach b64s (λ b64, when (truthy b64)
                         (data ← lift (base64ToArrayBuffer b64); emit "audio" [ABuf data])) w
  = (w, (λ b, Emit "audio" [ABuf b]) <$> (decode_until (List.filter truthy b64s)).1,
     match (decode_until (List.filter truthy b64s)).2 with
     | None => Return tt
     | Some e => Throw e
     end).
Proof.
  induction b64s as [|b64 b64s IH]; [done|]. cbn [forEach List.filter].
  destruct (truthy b64) eqn:Ht; cbn [when].
  - cbn [decode_until]. destruct (base64ToArrayBuffer b64) as [data|e] eqn:Hd.
    + erewrite bind_run; last first.
      { rewrite bind_lift, ?Hd. reflexivity. }
      rewrite IH. cbn. by destruct (decode_until (List.filter truthy b64s)).
    + erewrite bind_throw; [done|]. by rewrite bind_lift, ?Hd.
  - erewrite bind_run; [|reflexivity]. by rewrite IH.
Qed.

Lemma inline_data_audio p :
  is_audio p = true → inline_data p = Return (field (field p "inlineData") "data").
Proof.
  unfold is_audio, is_audio_part, inline_data, field.
  destruct (get p "inlineData") as [i|]; [|done]. by destruct i.
Qed.

Lemma mapR_inline (l : list Val) :
  Forall (λ p, is_audio p = true) l →
  mapR inline_data l = Return ((λ p, field (field p "inlineData") "data") <$> l).
Proof.
  induction 1 as [|p l Hp _ IH]; [done|]. cbn [mapR].
  by rewrite (inline_data_audio p Hp), IH.
Qed.

Lemma audio_payloads_filter items :
  audio_payloads items
  = List.filter truthy ((λ p, field (field p "inlineData") "data")
                          <$> List.filter is_audio items).
Proof.
  unfold audio_payloads. induction items as [|p items IH]; [done|]. cbn.
  destruct (is_audio p) eqn:Hp; [|done]. cbn.
  rewrite (inline_data_audio p Hp), IH.
  by destruct (truthy (field (field p "inlineData") "data")).
Qed.

Lemma mapR_snd {A B} (f : A → Result B) (l : list (nat * A)) :
  mapR (λ p, f p.2) l = mapR f l.*2.
Proof. induction l as [|p l IH]; [done|]. cbn. by rewrite IH. Qed.

Lemma filter_tagged (g : Val → bool) (items : list Val) :
  (List.filter (λ p, g p.2) (imap (λ i p, (i, p)) items)).*2 = List.filter g items.
Proof. apply (filter_imap_snd g items id). Qed.

Lemma Forall_filter_picks {A} (g : A → bool) (l : list A) :
  Forall (λ x, g x = true) (List.filter g l).
Proof. apply Forall_forall. intros x Hx. by apply list_elem_of_In, filter_In in Hx as [_ ?]. Qed.

Lemma receive_modelTurn_run c items w :
  Forall (λ p, ∃ b, has_text p = Return b) items →
  receive_modelTurn c (JObj [("parts", JArr items)]) w
  = match filterR is_audio_part items with
    | Throw e => (w, text_effects items, Throw e)
    | Return _ =>
        match (decode_until (audio_payloads items)).2 with
        | Some e => (w, text_effects items ++ audio_effects items, Throw e)
        | None => (w, text_effects items ++ audio_effects items
                        ++ content_effects (name c) items, Return tt)
        end
    end.
Proof.
  intros Ht. unfold receive_modelTurn, prop.
  rewrite bind_lift. cbn [get assoc String.eqb Ascii.eqb Bool.eqb].
  rewrite bind_lift. cbn [elements].
  set (tagged := imap (λ i p, (i, p)) items).
  assert (Hsnd : tagged.*2 = items) by apply tagged_snd.
  rewrite bind_lift, (filterR_snd has_text tagged), Hsnd.
  destruct (filterR_total has_text items Ht) as [r ->].
  assert (Htexts : forEach (List.filter (λ p, picks has_text p.2) tagged)
                     (λ p, text ← lift (get p.2 "text"); emit "text" [AVal text]) w
                   = (w, text_effects items, Return tt)).
  { rewrite (forEach_snd _ (λ v, text ← lift (get v "text"); emit "text" [AVal text])).
    subst tagged. rewrite (filter_tagged (picks has_text)).
    rewrite (forEach_texts _ w (Forall_filter_picks _ _)).
    unfold text_effects. by rewrite texts_filter. }
  rewrite (bind_run _ _ _ _ _ _ Htexts).
  rewrite bind_lift, (filterR_snd is_audio_part tagged), Hsnd.
  destruct (filterR is_audio_part items) as [r'|e] eqn:Hr';
    cbn [world_of effects_of result_of fst snd];
    [|by rewrite app_nil_r].
  set (audioParts := List.filter (λ p : nat * Val, picks is_audio_part p.2) tagged).
  assert (Haudio : audioParts.*2 = List.filter is_audio items).
  { subst audioParts tagged. apply (filter_tagged is_audio). }
  assert (Hothers : (List.filter (λ p, negb (includes audioParts p)) tagged).*2
                    = non_audio items).
  { apply (other_parts_are_the_non_audio_parts items tagged audioParts); [done|].
    rewrite (filterR_snd is_audio_part tagged), Hsnd, Hr'. done. }
  rewrite bind_lift, (mapR_snd inline_data audioParts), Haudio.
  rewrite (mapR_inline _ (Forall_filter_picks is_audio items)).
  set (others := List.filter (λ p, negb (includes audioParts p)) tagged) in *.
  assert (Hlen : length others = length (non_audio items)).
  { by rewrite <-Hothers, length_fmap. }
  rewrite Hothers, Hlen.
  pose proof (forEach_audio ((λ p, field (field p "inlineData") "data")
                               <$> List.filter is_audio items) w) as Ha.
  rewrite <-audio_payloads_filter in Ha. fold (audio_effects items) in Ha.
  destruct (decode_until (audio_payloads items)).2 as [e|] eqn:Hfail.
  - rewrite (bind_throw _ _ _ _ _ _ Ha). cbn [world_of effects_of result_of fst snd].
    done.
  - rewrite (bind_run _ _ _ _ _ _ Ha). unfold content_effects.
    destruct (non_audio items) as [|o os]; cbn [length Nat.eqb negb when];
      cbn [world_of effects_of result_of fst snd].
    + by rewrite !app_nil_r.
    + unfold emit, console. erewrite bind_run; [|reflexivity].
      done.
Qed.


Lemma emitted_app t1 t2 : emitted (t1 ++ t2) = emitted t1 ++ emitted t2.
Proof. unfold emitted. apply omap_app. Qed.

Lemma emitted_emits {A} (ev : string) (f : A → list Arg) (l : list A) :
  emitted ((λ x, Emit ev (f x)) <$> l) = (λ x, (ev, f x)) <$> l.
Proof. induction l as [|x l IH]; [done|]. cbn. by rewrite <-IH. Qed.



(** *** What an inbound frame can touch *)

Lemma inbound_pure {A} (m : M A) :
  (∀ w, world_of (m w) = w ∧ effects_of (m w) = []) → inbound m.
Proof. intros Hm w. destruct (Hm w) as [-> ->]. by split. Qed.

Lemma inbound_tell e : shows_only e = true → inbound (tell e).
Proof. intros He w. split; [done|]. by repeat constructor. Qed.

Lemma inbound_bind {A B} (m : M A) (k : A → M B) :
  inbound m → (∀ a, inbound (k a)) → inbound (m ≫= k).
Proof.
  intros Hm Hk w. destruct (Hm w) as [Hw Ht]. unfold mbind, M_bind.
  destruct (m w) as [[w1 t1] [a|e]]; [|done].
  destruct (Hk a w1) as [Hw' Ht']. destruct (k a w1) as [[w2 t2] r2].
  cbn in *. split; [congruence | by apply Forall_app].
Qed.

Lemma inbound_when b m : inbound m → inbound (when b m).
Proof. intros Hm. destruct b; [done|]. by apply inbound_pure. Qed.

Lemma inbound_forEach {A} (l : list A) f : (∀ a, inbound (f a)) → inbound (forEach l f).
Proof.
  intros Hf. induction l as [|x l IH]; cbn.
  - by apply inbound_pure.
  - by apply inbound_bind.
Qed.

Lemma inbound_set_flag b : inbound (modify_this (set_isSetupComplete b)).
Proof. intros w. by destruct w as [[]]. Qed.

Ltac inbound_step :=
  cbv beta;
  lazymatch goal with
  | |- inbound (mbind _ _) => apply inbound_bind; [|intros ?]
  | |- inbound (tell _) => by apply inbound_tell
  | |- inbound (console _ _) => by apply inbound_tell
  | |- inbound (emit _ _) => by apply inbound_tell
  | |- inbound (modify_this (set_isSetupComplete _)) => apply inbound_set_flag
  | |- inbound (when _ _) => apply inbound_when
  | |- inbound (forEach _ _) => apply inbound_forEach; intros ?
  | |- inbound (if ?b then _ else _) => destruct b
  | |- inbound (let _ := _ in _) => cbv zeta
  | |- inbound _ => by apply inbound_pure
  end.

Lemma inbound_receive response : inbound (receive response).
Proof. unfold receive, receive_modelTurn. repeat inbound_step. Qed.

(** X16.  Whatever a socket delivers, handling it ends normally, prints
    and publishes only (nothing is handed to a socket, none is closed),
    and leaves the world as it was except, at most, for the
    handshake-complete flag. *)
Theorem inbound_frames_only_show w sid data :
  let out := perform (WsMessage sid data) w in
  result_of out = Return tt
  ∧ flagless (world_of out) = flagless w
  ∧ Forall (λ e, shows_only e = true) (effects_of out).
Proof.
  cbn [perform]. unfold dispatched. destruct (sockets w !! sid); [|by repeat split].
  destruct data as [[response|]|]; cbn [on_message].
  - destruct (inbound_receive response w) as [Hw Ht]. unfold detached.
    by destruct (receive response w) as [[w1 t1] r1].
  - by repeat split.
  - repeat split. by repeat constructor.
Qed.
End Inbound.

(** ** Registering and removing listeners *)

Section EmitterMore.
Import EventEmitter.
Context {A W : Type}.
Implicit Types (l : Listener A W) (ls : list (Listener A W))
  (evs : gmap string (list (Listener A W))) (w : W) (args : A).

Lemma read_insert_ne evs event event' ls :
  event ≠ event' → read (<[event := ls]> evs) event' = read evs event'.
Proof. intros Hne. unfold read. by rewrite lookup_insert_ne. Qed.

Lemma entered_registered ls args w : (forEach ls args w).1.2 ⊆ ref <$> ls.
Proof.
  revert w. induction ls as [|l ls IH]; intros w; cbn; [done|].
  destruct (call l args w) as [w1 [e|]]; cbn.
  - intros x Hx. apply list_elem_of_singleton in Hx as ->. apply list_elem_of_here.
  - specialize (IH w1). destruct (forEach ls args w1) as [[w2 entered] r]. cbn in *.
    intros x Hx. apply elem_of_cons in Hx as [->|Hx]; [apply list_elem_of_here|].
    apply list_elem_of_further. by apply IH.
Qed.

(** X17.  [emit] returns [false] for a name nobody registered for, and
    [true] once a listener was registered, also after that listener has
    been removed again. *)
Theorem emit_tells_whether_anyone_ever_listened event args w l :
  event ∉ object_prototype_keys →
  emit new event args w = (w, [], Return false)
  ∧ ∃ evs evs', on new event l = Return evs
                ∧ removeListener evs event l = Return evs'
                ∧ emit evs' event args w = (w, [], Return true).
Proof.
  intros Hk. split.
  - unfold emit. by rewrite (read_new _ Hk).
  - unfold on. rewrite (read_new _ Hk). eexists _, _. split; [done|].
    unfold removeListener. rewrite read_insert. split; [done|].
    unfold emit. rewrite read_insert. cbn. by rewrite Nat.eqb_refl.
Qed.

(** X18.  [removeListener] keeps the other listeners of the event in
    their order, drops every registration of the given one, so that the
    next [emit] does not enter it, and leaves the other events alone. *)
Theorem removeListener_drops_every_registration evs event l ls args w :
  read evs event = Own ls →
  ∃ evs', removeListener evs event l = Return evs'
          ∧ read evs' event = Own (List.filter (λ x, negb (ref x =? ref l)%nat) ls)
          ∧ (ref l ∉ (emit evs' event args w).1.2)
          ∧ ∀ event', event' ≠ event → read evs' event' = read evs event'.
Proof.
  intros Hr. unfold removeListener. rewrite Hr. eexists. split; [done|].
  split; [apply read_insert|]. split.
  - unfold emit. rewrite read_insert.
    set (rest := List.filter _ ls).
    pose proof (entered_registered rest args w) as Hsub.
    destruct (forEach rest args w) as [[w1 entered] [e|]]; cbn in *;
      intros Hin; apply Hsub, list_elem_of_fmap in Hin as (x & Heq & Hx);
      apply list_elem_of_In, filter_In in Hx as [_ Hx];
      apply negb_true_iff, Nat.eqb_neq in Hx; congruence.
  - intros event' Hne. by apply read_insert_ne.
Qed.

(** X19.  Registering a listener for one event changes neither the
    listeners of another event nor what [emit] does for it. *)
Theorem on_leaves_other_events_alone evs evs' event event' l args w :
  on evs event l = Return evs' → event' ≠ event →
  read evs' event' = read evs event'
  ∧ emit evs' event' args w = emit evs event' args w.
Proof.
  intros Hon Hne. assert (Hr : read evs' event' = read evs event').
  { unfold on in Hon. destruct (read evs event); simplify_eq; by apply read_insert_ne. }
  split; [done|]. unfold emit. by rewrite Hr.
Qed.

(** X20.  A listener registered twice for an event is entered twice by
    one publication, and one [removeListener] drops both registrations. *)
Theorem on_does_not_deduplicate event l args w :
  event ∉ object_prototype_keys → returns args l →
  ∃ evs w', on_all new event [l; l] = Return evs
            ∧ emit evs event args w = (w', [ref l; ref l], Return true)
            ∧ ∃ evs', removeListener evs event l = Return evs'
                      ∧ read evs' event = Own [].
Proof.
  intros Hk Hl. cbn [on_all]. unfold on at 1. rewrite (read_new _ Hk).
  unfold on. rewrite read_insert. cbn [app].
  pose proof (Hl w) as H1. destruct (call l args w) as [w1 o1] eqn:E1. cbn in H1. subst o1.
  pose proof (Hl w1) as H2. destruct (call l args w1) as [w2 o2] eqn:E2. cbn in H2. subst o2.
  eexists _, w2. split; [done|]. split.
  - unfold emit. rewrite read_insert. cbn. by rewrite E1, E2.
  - unfold removeListener. rewrite read_insert. eexists. split; [done|].
    rewrite read_insert. cbn. by rewrite Nat.eqb_refl.
Qed.

(** X21.  For a name that [Object.prototype] defines ([toString],
    [constructor], ...), [on], [emit] and [removeListener] all throw a
    TypeError: the emitter's store is a plain object and takes the
    inherited member for its listener array. *)
Theorem inherited_names_cannot_be_events evs event l args w :
  event ∈ object_prototype_keys → evs !! event = None →
  on evs event l = Throw (TypeError "this._events[event].push is not a function")
  ∧ emit evs event args w
    = (w, [], Throw (TypeError "this._events[event].forEach is not a function"))
  ∧ removeListener evs event l
    = Throw (TypeError "this._events[event].filter is not a function").
Proof.
  intros Hk Hnone.
  assert (Hr : read evs event = Inherited).
  { unfold read. by rewrite Hnone, bool_decide_eq_true_2. }
  unfold on, emit, removeListener. by rewrite Hr.
Qed.
End EmitterMore.


(** ** The reason of a close *)

Section Regex.
Context `{Platform}.

Lemma prefix_ci_alike m p post : alike m p = true → prefix_ci p (m +:+ post) = true.
Proof.
  revert p. induction m as [|x m IH]; intros [|y p];
    cbn [alike prefix_ci String.append]; try done.
  intros Hxy. apply andb_prop in Hxy as [Hxy Hm].
  apply Ascii.eqb_eq in Hxy.
  change (String x m +:+ post) with (String x (m +:+ post)). cbn [prefix_ci].
  rewrite Hxy, Ascii.eqb_refl. by apply IH.
Qed.

Lemma contains_ci_app p pre s : contains_ci p s = true → contains_ci p (pre +:+ s) = true.
Proof.
  intros Hs. induction pre as [|c pre IH]; [done|].
  change (String c pre +:+ s) with (String c (pre +:+ s)). cbn [contains_ci].
  rewrite IH. apply orb_true_r.
Qed.

Lemma contains_ci_alike p pre m post :
  alike m p = true → contains_ci p (pre +:+ m +:+ post) = true.
Proof.
  intros Hm. apply contains_ci_app.
  destruct (m +:+ post) eqn:E; cbn [contains_ci];
    by rewrite <-E, (prefix_ci_alike m p post Hm).
Qed.

End Regex.

(* ===================================================================== *)
(** * Part IV: the client with the listeners of the page *)
(* ===================================================================== *)

(** ** What a call of [emit] does *)

Section Audience.
Context `{Platform}.
Implicit Types (evs : Listening.Store) (w : World) (l : Listening.Handler)
  (ls pre post : list Listening.Handler).

Lemma forEach_calm ls args w :
  Forall Listening.calm ls → EventEmitter.forEach ls args w = (w, EventEmitter.ref <$> ls, None).
Proof.
  induction 1 as [|l ls Hl _ IH]; [done|]. cbn. by rewrite (Hl args w), IH.
Qed.

Lemma forEach_breaks pre l post args w e :
  Forall Listening.calm pre → (∀ args w, EventEmitter.call l args w = (w, Some e)) →
  EventEmitter.forEach (pre ++ l :: post) args w
  = (w, EventEmitter.ref <$> pre ++ [l], Some e).
Proof.
  intros Hpre Hl. induction Hpre as [|l' pre Hl' _ IH]; cbn.
  - by rewrite Hl.
  - by rewrite (Hl' args w), IH.
Qed.

Lemma emit_quiet evs event args w :
  Listening.quiet evs event → event ∉ EventEmitter.object_prototype_keys →
  Listening.emit evs event args w = (w, [Emit event args], Return tt).
Proof.
  intros Hq Hk. unfold Listening.emit, EventEmitter.emit, EventEmitter.read.
  destruct (evs !! event) as [ls|] eqn:E; cbv beta iota.
  - by rewrite (forEach_calm ls args w (Hq ls E)).
  - by rewrite bool_decide_eq_false_2.
Qed.

Lemma emit_breaks evs event args w e :
  Listening.breaks evs event e → Listening.emit evs event args w = (w, [Emit event args], Throw e).
Proof.
  intros (pre & l & post & E & Hpre & Hl).
  unfold Listening.emit, EventEmitter.emit, EventEmitter.read. rewrite E. cbv beta iota.
  by rewrite (forEach_breaks pre l post args w e Hpre Hl).
Qed.

Lemma emit_effects evs event args w :
  effects_of (Listening.emit evs event args w) = [Emit event args].
Proof.
  unfold Listening.emit.
  by destruct (EventEmitter.emit evs event args w) as [[w1 en] [b|e]].
Qed.

Lemma same_bind {A B} (m m' : M A) (k k' : A → M B) :
  Listening.same m m' → (∀ a, Listening.same (k a) (k' a)) → Listening.same (m ≫= k) (m' ≫= k').
Proof.
  intros Hm Hk w. unfold mbind, M_bind. rewrite (Hm w).
  destruct (m' w) as [[w1 t1] [a|e]]; [|done]. by rewrite (Hk a w1).
Qed.

Lemma same_when b (m m' : M unit) :
  Listening.same m m' → Listening.same (when b m) (when b m').
Proof. intros Hm. by destruct b. Qed.

Lemma same_forEach {A} (l : list A) (f f' : A → M unit) :
  (∀ a, Listening.same (f a) (f' a)) → Listening.same (forEach l f) (forEach l f').
Proof.
  intros Hf. induction l as [|x l IH]; cbn; [done|]. by apply same_bind.
Qed.

Lemma same_detached {A} (m m' : M A) :
  Listening.same m m' → Listening.same (detached m) (detached m').
Proof. intros Hm w. unfold detached. by rewrite (Hm w). Qed.

Lemma same_dispatched sid (m m' : M unit) :
  Listening.same m m' → Listening.same (dispatched sid m) (dispatched sid m').
Proof. intros Hm w. unfold dispatched. by case_match. Qed.

Lemma same_emit evs event args :
  Listening.quiet evs event → event ∉ EventEmitter.object_prototype_keys →
  Listening.same (Listening.emit evs event args) (emit event args).
Proof. intros Hq Hk w. by rewrite emit_quiet. Qed.

Lemma quiet_among evs names event :
  Forall (Listening.quiet evs) names → event ∈ names → Listening.quiet evs event.
Proof. intros Hq Hin. by apply (proj1 (Forall_forall _ _) Hq). Qed.

End Audience.

(** Membership in a list written out, a name that is no member of
    Object.prototype, and the calm of the listeners of an event that is
    among those assumed quiet. *)
Ltac listed := repeat first [apply list_elem_of_here | apply list_elem_of_further].
Ltac not_inherited := apply (bool_decide_unpack _); vm_compute; exact I.
Ltac hushed :=
  first [ assumption
        | match goal with
          | Hq : Forall (Listening.quiet _) _ |- _ =>
              apply (quiet_among _ _ _ Hq); listed
          end ].

(** One step of the comparison of a method of [Listening] with the
    method of [Client] of the same name. *)
Ltac same_step :=
  cbv beta;
  lazymatch goal with
  | |- Listening.same (Listening.emit _ _ _) (emit _ _) =>
      apply same_emit; [hushed | not_inherited]
  | |- Listening.same (mbind _ _) (mbind _ _) => apply same_bind; [|intros ?]
  | |- Listening.same (when _ _) (when _ _) => apply same_when
  | |- Listening.same (forEach _ _) (forEach _ _) => apply same_forEach; intros ?
  | |- Listening.same (detached _) (detached _) => apply same_detached
  | |- Listening.same (dispatched _ _) (dispatched _ _) => apply same_dispatched
  | |- Listening.same (if ?b then _ else _) (if ?b then _ else _) => destruct b
  | |- Listening.same (match ?x with _ => _ end) (match ?x with _ => _ end) => destruct x
  | |- Listening.same (let _ := _ in _) _ => cbv zeta
  | |- Listening.same _ _ => by intros ?
  end.

(** ** With calm listeners the two clients agree *)

Section Agreement.
Context `{Platform}.
Implicit Types (evs : Listening.Store) (w : World).

Lemma same_receive_modelTurn evs c modelTurn :
  Forall (Listening.quiet evs) ["text"; "audio"; "content"] →
  Listening.same (Listening.receive_modelTurn evs c modelTurn) (receive_modelTurn c modelTurn).
Proof.
  intros Hq. unfold Listening.receive_modelTurn, receive_modelTurn.
  repeat same_step.
Qed.

Lemma same_on_error evs sid r :
  Listening.quiet evs "error" → Listening.same (Listening.on_error evs sid r) (on_error sid r).
Proof. intros Hq. unfold Listening.on_error, on_error. repeat same_step. Qed.

Lemma same_on_close evs sid ev :
  Forall (Listening.quiet evs) ["auth_failed"; "error"; "disconnected"] →
  Listening.same (Listening.on_close evs sid ev) (on_close sid ev).
Proof. intros Hq. unfold Listening.on_close, on_close. repeat same_step. Qed.

Lemma same_connect evs :
  Listening.quiet evs "error" → Listening.same (Listening.connect evs) connect.
Proof. intros Hq. unfold Listening.connect, connect. repeat same_step. Qed.

Lemma same_receive evs response :
  Forall (Listening.quiet evs) Listening.client_events →
  Listening.same (Listening.receive evs response) (receive response).
Proof.
  intros Hq. unfold Listening.receive, receive.
  repeat lazymatch goal with
         | |- Listening.same (Listening.receive_modelTurn _ _ _) _ =>
             apply same_receive_modelTurn;
             repeat constructor; apply (quiet_among _ _ _ Hq); listed
         | |- _ => same_step
         end.
Qed.

(** Whatever happens to the client, when the listeners of every event
    it publishes are calm, the client with its listeners does what
    [Client] does: the same world, the same effects, the same outcome. *)
Lemma same_perform evs a :
  Forall (Listening.quiet evs) Listening.client_events →
  Listening.same (Listening.perform evs a) (perform a).
Proof.
  intros Hq. destruct a as [| | | | | | | |sid r|sid data|sid ev];
    cbn [Listening.perform perform].
  1: { apply same_bind; [|by intros ??]. apply same_connect. hushed. }
  1-7: by intros ?.
  - apply same_dispatched, same_on_error. hushed.
  - apply same_dispatched. destruct data as [[response|]|]; cbn [Listening.on_message on_message].
    + by apply same_detached, same_receive.
    + by intros ?.
    + by intros ?.
  - apply same_dispatched, same_on_close.
    repeat constructor; apply (quiet_among _ _ _ Hq); listed.
Qed.
End Agreement.

(** Going by what one call of [emit] made of the world. *)
Ltac emitted_next :=
  match goal with
  | |- context [Listening.emit ?evs ?event ?args ?w] =>
      let He := fresh "He" in
      pose proof (emit_effects evs event args w) as He;
      destruct (Listening.emit evs event args w) as [[? ?] [[]|?]];
      cbn in He; subst; cbn
  end.

(** ** What is published, and what a throwing listener cuts short *)

Section Published.
Context `{Platform}.
Implicit Types (evs : Listening.Store) (w : World).

Lemma close_events_listened evs w sid ev :
  (authFailure ev = false →
   events (effects_of (Listening.on_close evs sid ev w)) = ["disconnected"])
  ∧ (authFailure ev = true → Listening.quiet evs "auth_failed" →
     events (effects_of (Listening.on_close evs sid ev w)) = ["auth_failed"; "error"])
  ∧ (authFailure ev = true → ∀ e, Listening.breaks evs "auth_failed" e →
     events (effects_of (Listening.on_close evs sid ev w)) = ["auth_failed"]
     ∧ result_of (Listening.on_close evs sid ev w) = Throw e).
Proof.
  split; [|split].
  - intros Ha. unfold Listening.on_close, browser_sets, disconnect, reject, settle, ws_close.
    exec. rewrite Ha.
    destruct (ws (this w)); cbn; emitted_next; repeat case_match; by simplify_eq.
  - intros Ha Hq. unfold Listening.on_close, browser_sets, disconnect, reject, settle, ws_close.
    exec. rewrite Ha.
    destruct (ws (this w)); cbn; (rewrite emit_quiet; [|done|not_inherited]); cbn;
      emitted_next; repeat case_match; by simplify_eq.
  - intros Ha e Hb. unfold Listening.on_close, browser_sets, disconnect, reject, settle, ws_close.
    exec. rewrite Ha.
    destruct (ws (this w)); cbn; by rewrite (emit_breaks _ _ _ _ e Hb).
Qed.


(** X22.  A close whose reason contains auth, token or key, in any
    mix of upper and lower case and anywhere in the text, is published as
    an authentication failure, whatever its code: auth_failed, and error
    after it when the listeners of auth_failed are calm; auth_failed
    alone when one of them throws. *)
Theorem reason_naming_a_credential_is_auth_failure evs w sid k c pre m post clean :
  sockets w !! sid = Some k →
  alike m "auth" || alike m "token" || alike m "key" = true →
  let published :=
    events (effects_of (Listening.perform evs
                          (WsClose sid (mkCloseEvent c (pre +:+ m +:+ post) clean)) w)) in
  (Listening.quiet evs "auth_failed" → published = ["auth_failed"; "error"])
  ∧ (∀ e, Listening.breaks evs "auth_failed" e → published = ["auth_failed"]).
Proof.
  intros Hk Hm. cbn [Listening.perform]. unfold dispatched. rewrite Hk. cbn zeta.
  assert (Hne : is_empty (pre +:+ m +:+ post) = false).
  { destruct pre; [|done]. destruct m; [|done]. done. }
  assert (Hp : auth_pattern (pre +:+ m +:+ post) = true).
  { unfold auth_pattern. apply orb_prop in Hm as [Hm|Hm]; [apply orb_prop in Hm as [Hm|Hm]|].
    - by rewrite (contains_ci_alike "auth" pre m post Hm).
    - rewrite (contains_ci_alike "token" pre m post Hm). by rewrite orb_true_r.
    - rewrite (contains_ci_alike "key" pre m post Hm). by rewrite !orb_true_r. }
  assert (Ha : authFailure (mkCloseEvent c (pre +:+ m +:+ post) clean) = true).
  { unfold authFailure. cbn [reason]. rewrite Hne, Hp. by rewrite orb_true_r. }
  destruct (close_events_listened evs w sid (mkCloseEvent c (pre +:+ m +:+ post) clean))
    as (_ & Hyes & Hthrow).
  split; [by apply Hyes|]. intros e Hb. by apply (Hthrow Ha e Hb).
Qed.

End Published.

(** ** A model turn and the listeners *)

Section Turn.
Context `{Platform}.
Implicit Types (evs : Listening.Store) (w : World).

Lemma listened_ServerContent evs items w :
  Listening.receive evs (ServerContent items) w
  = Listening.receive_modelTurn evs (this w) (JObj [("parts", JArr items)]) w.
Proof.
  unfold Listening.receive, prop, ServerContent, modelTurn_of.
  erewrite bind_run; [|reflexivity]. cbn [world_of effects_of result_of fst snd].
  repeat (rewrite bind_lift; cbn).
  erewrite (bind_run (mret ())); [|reflexivity]. rewrite bind_lift. cbn.
  destruct (Listening.receive_modelTurn _ _ _ w) as [[w1 t1] r1]. done.
Qed.

Lemma first_text_breaks evs items w e t ts :
  Forall (λ p, ∃ b, has_text p = Return b) items →
  Listening.breaks evs "text" e → texts items = t :: ts →
  Listening.receive_modelTurn evs (this w) (JObj [("parts", JArr items)]) w
  = (w, [Emit "text" [AVal t]], Throw e).
Proof.
  intros Ht Hb Hts. unfold Listening.receive_modelTurn, prop.
  rewrite bind_lift. cbn [get assoc String.eqb Ascii.eqb Bool.eqb].
  rewrite bind_lift. cbn [elements].
  set (tagged := imap (λ i p, (i, p)) items).
  assert (Hsnd : tagged.*2 = items) by apply tagged_snd.
  rewrite bind_lift, (filterR_snd has_text tagged), Hsnd.
  destruct (filterR_total has_text items Ht) as [r ->].
  apply bind_throw.
  rewrite (forEach_snd _ (λ v, text ← lift (get v "text"); Listening.emit evs "text" [AVal text])).
  subst tagged. rewrite (filter_tagged (picks has_text)).
  rewrite <-texts_filter in Hts.
  pose proof (Forall_filter_picks (picks has_text) items) as Hall.
  destruct (List.filter (picks has_text) items) as [|p ps]; [done|].
  inversion Hall as [|?? Hp _]; subst.
  destruct (picks_has_text p Hp) as (t' & Ht' & Htt).
  rewrite texts_cons, Ht', Htt in Hts. injection Hts as -> _.
  cbn [forEach]. apply bind_throw. rewrite bind_lift, Ht'.
  by apply emit_breaks.
Qed.

(** X14.  For every model turn whose parts the two filters can read:
    with calm listeners of text, audio and content the world is
    unchanged and the events are one text event per truthy text, in
    order, then one audio event per truthy payload of an audio part, in
    order, up to the first payload that does not decode, then, when all
    decoded and some part is not audio, one content event with the parts
    that are not audio; a payload that does not decode ends the call
    with its exception.  With a text listener that throws, the first
    text event is the only effect and the call ends with the listener's
    exception. *)
Theorem modelTurn_routing_in_general evs w items :
  Forall well_formed items →
  let out := Listening.receive evs (ServerContent items) w in
  let decoded := decode_until (audio_payloads items) in
  (Forall (Listening.quiet evs) ["text"; "audio"; "content"] →
   world_of out = w
   ∧ emitted (effects_of out)
     = text_events items ++ audio_events decoded.1
       ++ match decoded.2 with None => content_events items | Some _ => [] end
   ∧ result_of out = match decoded.2 with None => Return tt | Some e => Throw e end)
  ∧ (∀ e t ts, Listening.breaks evs "text" e → texts items = t :: ts →
       out = (w, [Emit "text" [AVal t]], Throw e)).
Proof.
  intros Hwf. cbn zeta. rewrite listened_ServerContent.
  assert (Ht : Forall (λ p, ∃ b, has_text p = Return b) items).
  { eapply Forall_impl; [exact Hwf|]. by intros p [? _]. }
  split; [|intros e t ts Hb Hts; by apply (first_text_breaks evs items w e t ts)].
  intros Hq. rewrite (same_receive_modelTurn evs _ _ Hq w).
  rewrite receive_modelTurn_run by done.
  destruct (filterR_total is_audio_part items) as [r ->].
  { eapply Forall_impl; [exact Hwf|]. by intros p [_ ?]. }
  unfold text_events, audio_events, content_events, text_effects, audio_effects,
    content_effects.
  destruct (decode_until (audio_payloads items)) as [bufs [e|]]; cbn [fst snd];
    cbn [world_of effects_of result_of fst snd]; rewrite !emitted_app, !emitted_emits;
    (split; [done|]); (split; [|done]).
  - by rewrite app_nil_r.
  - by destruct (non_audio items).
Qed.
End Turn.

(** ** A connection attempt and the listeners *)

Section Attempt.
Context `{Platform}.
Implicit Types (evs : Listening.Store) (w : World).

Lemma listened_connect_attempt evs w key u :
  can_connect w key u →
  Listening.connect evs w
  = (attempt w u, [Console Info "🔗 Establishing WebSocket connection..."],
     Return (Follows (length (promises w)))).
Proof.
  intros (Hws & Hc & Hkey & Hne & Hu & Hacc).
  unfold Listening.connect, ws_readyState, new_connection. exec.
  rewrite Hws. cbn. rewrite Hc. cbn. rewrite Hkey.
  destruct key as [|c key]; [done|]. cbn. rewrite Hu. cbn. by rewrite Hacc.
Qed.

Lemma listened_connect_busy evs w :
  ws (this w) = None → isConnecting (this w) = true →
  Listening.connect evs w = (w, [], Return (returned_promise (connectionPromise (this w)))).
Proof.
  intros Hws Hc. unfold Listening.connect, ws_readyState. exec.
  rewrite Hws. cbn. by rewrite Hc.
Qed.

Lemma listened_open evs sid : Listening.perform evs (WsOpen sid) = perform (WsOpen sid).
Proof. reflexivity. Qed.

Lemma listened_error evs sid r w :
  Listening.quiet evs "error" →
  Listening.perform evs (WsError sid r) w = perform (WsError sid r) w.
Proof.
  intros Hq. cbn [Listening.perform perform]. unfold dispatched.
  case_match; [|done]. apply (same_on_error evs _ r Hq).
Qed.

Lemma listened_close evs sid ev w :
  Forall (Listening.quiet evs) ["auth_failed"; "error"; "disconnected"] →
  Listening.perform evs (WsClose sid ev) w = perform (WsClose sid ev) w.
Proof.
  intros Hq. cbn [Listening.perform perform]. unfold dispatched.
  case_match; [|done]. apply (same_on_close evs _ ev Hq).
Qed.

Lemma on_error_breaks evs w sid k r e :
  ws (this w) = None → sockets w !! sid = Some k → Listening.breaks evs "error" e →
  Listening.perform evs (WsError sid r) w
  = (set_sockets (alter (set_readyState CLOSED) sid (sockets w)) w,
     [Console Error (error_message (sock_url k) r);
      Emit "error" [AVal (JStr (error_message (sock_url k) r))]],
     Throw e).
Proof.
  intros Hws Hk Hb. cbn [Listening.perform]. unfold dispatched. rewrite Hk.
  unfold Listening.on_error, browser_sets, disconnect, url_of, error_message. exec.
  rewrite Hws. cbn. look_up Hk Hk. rewrite (emit_breaks _ _ _ _ e Hb). cbn.
  by destruct r as [[|]|].
Qed.

(** C8 (as amended).  While connect is pending on a client that holds
    no socket, disconnect does nothing: the world is unchanged and the
    promise stays pending.  The promise is settled by the socket's own
    events afterwards: open fulfils it; error and close reject it when
    the listeners of the events they publish are calm.  When a listener
    of error throws, the error handler ends before its [reject]: the
    promise is pending still and the client still connecting. *)
Theorem disconnect_settles_no_pending_connect evs w key u r ev :
  can_connect w key u →
  let p := Follows (length (promises w)) in
  let sid := length (sockets w) in
  let w1 := world_of (Listening.connect evs w) in
  result_of (Listening.connect evs w) = Return p
  ∧ disconnect w1 = (w1, [], Return tt)
  ∧ state_of (world_of (disconnect w1)) p = Pending
  ∧ state_of (world_of (Listening.perform evs (WsOpen sid) w1)) p = Fulfilled
  ∧ (Listening.quiet evs "error" →
     state_of (world_of (Listening.perform evs (WsError sid r) w1)) p
     = Rejected (ErrorEvent r))
  ∧ (Forall (Listening.quiet evs) ["auth_failed"; "error"; "disconnected"] →
     state_of (world_of (Listening.perform evs (WsClose sid ev) w1)) p
     = Rejected (JsError (closed_during_connect_message ev)))
  ∧ (∀ e, Listening.breaks evs "error" e →
       state_of (world_of (Listening.perform evs (WsError sid r) w1)) p = Pending
       ∧ isConnecting (this (world_of (Listening.perform evs (WsError sid r) w1))) = true).
Proof.
  intros Hcan. rewrite (listened_connect_attempt evs w key u Hcan).
  cbn [world_of result_of fst snd].
  assert (Hk : sockets (attempt w u) !! length (sockets w)
               = Some (mkSocket u CONNECTING (length (promises w)))).
  { by apply list_lookup_middle. }
  assert (Hp : promises (attempt w u) !! length (promises w) = Some Pending).
  { by apply list_lookup_middle. }
  destruct Hcan as (Hws & _).
  destruct (disconnect_before_open_is_noop (attempt w u) _ _ r ev Hws eq_refl Hk Hp)
    as (Hd & _ & Ho & He & Hcl).
  cbn [settles] in *. rewrite listened_open.
  split; [done|]. split; [done|]. rewrite Hd. cbn [world_of fst snd state_of].
  split; [by rewrite Hp|]. split; [by rewrite Ho|]. split; [|split].
  - intros Hq. by rewrite (listened_error evs _ r _ Hq), He.
  - intros Hq. by rewrite (listened_close evs _ ev _ Hq), Hcl.
  - intros e Hb. rewrite (on_error_breaks evs (attempt w u) _ _ r e Hws Hk Hb).
    cbn [world_of fst snd state_of]. split; [|done].
    change (promises (set_sockets _ (attempt w u))) with (promises (attempt w u)).
    by rewrite Hp.
Qed.

(** X7.  An attempt the socket reports as failed, on a page whose
    listeners of error, auth_failed and disconnected are calm: the error
    handler publishes one error event and rejects the promise with the
    event; until the close event follows, [connect()] only hands that
    rejected promise back; the close event leaves the rejection as it is
    and makes the client able to connect again. *)
Theorem failed_attempt_retries_after_close evs w key u r ev :
  can_connect w key u →
  Forall (Listening.quiet evs) ["auth_failed"; "error"; "disconnected"] →
  let p := Follows (length (promises w)) in
  let sid := length (sockets w) in
  let w1 := world_of (Listening.connect evs w) in
  let w2 := world_of (Listening.perform evs (WsError sid r) w1) in
  let w3 := world_of (Listening.perform evs (WsClose sid ev) w2) in
  events (effects_of (Listening.perform evs (WsError sid r) w1)) = ["error"]
  ∧ state_of w2 p = Rejected (ErrorEvent r)
  ∧ Listening.connect evs w2 = (w2, [], Return p)
  ∧ state_of w3 p = Rejected (ErrorEvent r)
  ∧ can_connect w3 key u.
Proof.
  intros Hcan Hq. rewrite (listened_connect_attempt evs w key u Hcan).
  cbn [world_of fst snd].
  assert (Hqe : Listening.quiet evs "error") by hushed.
  rewrite !(listened_error evs _ r _ Hqe), (listened_close evs _ ev _ Hq).
  destruct Hcan as (Hws & Hc & Hkey & Hne & Hu & Hacc).
  assert (Hk : sockets (attempt w u) !! length (sockets w)
               = Some (mkSocket u CONNECTING (length (promises w)))).
  { by apply list_lookup_middle. }
  assert (Hp : promises (attempt w u) !! length (promises w) = Some Pending).
  { by apply list_lookup_middle. }
  rewrite (on_error_pending (attempt w u) _ _ r Hws Hk Hp).
  cbn [world_of effects_of fst snd settles].
  set (w2 := set_promises _ _).
  assert (Hr : promises w2 !! length (promises w) = Some (Rejected (ErrorEvent r))).
  { subst w2. cbn. apply list_lookup_insert_eq. rewrite length_app. cbn. lia. }
  assert (Hk2 : sockets w2 !! length (sockets w)
                = Some (mkSocket u CLOSED (length (promises w)))).
  { subst w2. cbn. change (sockets w ++ _) with (sockets (attempt w u)).
    by rewrite list_lookup_alter_eq, Hk. }
  assert (Hws2 : ws (this w2) = None) by done.
  assert (Hc2 : isConnecting (this w2) = true) by done.
  assert (Hcp2 : connectionPromise (this w2) = Some (length (promises w))) by done.
  assert (Hkey2 : deepgramApiKey w2 = Some key) by done.
  assert (Hu2 : wsUrl (url (this w2)) key = Some u) by done.
  clearbody w2.
  split; [done|]. split; [by cbn; rewrite Hr|]. split.
  { rewrite (listened_connect_busy evs w2 Hws2 Hc2). by rewrite Hcp2. }
  rewrite (on_close_pending w2 _ _ ev Hws2 Hc2 Hk2). cbn [settles]. rewrite Hr.
  split; [by cbn; rewrite Hr|]. done.
Qed.
End Attempt.

(** ** The further properties, on the example page *)

Section MoreExamples.
Import Scenario Cases.

Lemma ready_is_ready : ready_on ready 0.
Proof. split; [reflexivity|]. split; [reflexivity|]. eexists. split; reflexivity. Defined.

Lemma text_is_no_inherited_name : "text" ∉ EventEmitter.object_prototype_keys.
Proof. apply (bool_decide_unpack _). vm_compute. exact I. Defined.

Lemma connect_collapses_witness :
  can_connect page "K" "wss://example.test/live?key=K"
  ∧ length (sockets connecting) = 1
  ∧ connect connecting = (connecting, [], Return (Follows 0))
  ∧ connect (world_of (perform (WsOpen 0) connecting))
    = (world_of (perform (WsOpen 0) connecting), [], Return (Follows 0)).
Proof.
  split; [exact page_can_connect|].
  exact (connect_collapses_onto_the_attempt page "K" "wss://example.test/live?key=K"
           page_can_connect).
Defined.

Lemma connect_fails_fast_witness :
  ws (this keyless) = None ∧ isConnecting (this keyless) = false
  ∧ connect keyless
    = (keyless, [Console Error no_key_message; Emit "error" [AVal (JStr no_key_message)]],
       Return (Settled (Rejected (JsError no_key_message)))).
Proof.
  split; [reflexivity|]. split; [reflexivity|].
  exact (proj1 (connect_fails_fast keyless eq_refl eq_refl) (or_introl eq_refl)).
Defined.

Lemma disconnect_tears_down_witness :
  ws (this ready) = Some 0
  ∧ sockets ready !! 0 = Some (mkSocket "wss://example.test/live?key=K" OPEN 0)
  ∧ effects_of (disconnect ready)
    = [Close 0; Console Info "live successfully disconnected from websocket"]
  ∧ ws (this hung_up) = None ∧ isConnecting (this hung_up) = false
  ∧ connectionPromise (this hung_up) = None
  ∧ promises hung_up = promises ready ∧ flag hung_up = flag ready
  ∧ (readyState <$> sockets hung_up !! 0) = Some CLOSING
  ∧ disconnect hung_up = (hung_up, [], Return tt).
Proof.
  split; [reflexivity|]. split; [reflexivity|].
  exact (disconnect_tears_down_once ready 0 _ eq_refl eq_refl).
Defined.

Lemma reconnect_sends_setup_witness :
  can_connect hung_up "K" "wss://example.test/live?key=K" ∧ flag hung_up = true
  ∧ sent (run [Connect; WsOpen 1] hung_up).1.2
    = [(1, JObj [("setup", JObj [("model", JStr "m")])])].
Proof.
  assert (Hcan : can_connect hung_up "K" "wss://example.test/live?key=K")
    by (repeat split).
  split; [exact Hcan|]. split; [reflexivity|].
  exact (f_equal sent (reconnect_sends_setup hung_up "K" "wss://example.test/live?key=K"
                         Hcan eq_refl)).
Defined.

Lemma close_of_earlier_socket_witness :
  ws (this second_call) = Some 1
  ∧ sockets second_call !! 0 = Some (mkSocket "wss://example.test/live?key=K" CLOSING 0)
  ∧ sockets second_call !! 1 = Some (mkSocket "wss://example.test/live?key=K" OPEN 1)
  ∧ Close 1 ∈ effects_of (perform (WsClose 0 (mkCloseEvent 1000 "bye" true)) second_call)
  ∧ ws (this (world_of (perform (WsClose 0 (mkCloseEvent 1000 "bye" true)) second_call)))
    = None.
Proof.
  do 3 (split; [reflexivity|]).
  destruct (close_of_any_socket_drops_the_held_one second_call 0 1 _ _
              (mkCloseEvent 1000 "bye" true) eq_refl eq_refl ltac:(discriminate)
              eq_refl eq_refl) as (Hc & Hws & _).
  split; [exact Hc | exact Hws].
Defined.

Lemma close_after_open_witness :
  ws (this ready) = Some 0 ∧ deepgramApiKey ready = Some "K"
  ∧ promises (world_of (perform (WsClose 0 (mkCloseEvent 1000 "bye" true)) ready))
    = promises ready
  ∧ can_connect (world_of (perform (WsClose 0 (mkCloseEvent 1000 "bye" true)) ready))
      "K" "wss://example.test/live?key=K".
Proof.
  split; [reflexivity|]. split; [reflexivity|].
  destruct (close_after_open_allows_reconnect (H := browser) ready 0 _ (mkCloseEvent 1000 "bye" true)
              "K" "wss://example.test/live?key=K"
              eq_refl eq_refl eq_refl eq_refl eq_refl eq_refl) as (Hp & _ & Hcan & _).
  split; [exact Hp | exact Hcan].
Defined.



Lemma ready_sends_witness :
  ready_on ready 0
  ∧ sent (effects_of (sendAudio "AAAA" ready)) = [(0, media_envelope "audio/pcm" "AAAA")]
  ∧ sent (effects_of (sendImage "AAAA" ready)) = [(0, media_envelope "image/jpeg" "AAAA")]
  ∧ sent (effects_of (sendText "hi" None ready)) = [(0, text_envelope "hi" true)].
Proof.
  split; [exact ready_is_ready|].
  destruct (ready_sends_hand_over_one_frame ready 0 "AAAA" "hi" None ready_is_ready)
    as ((_ & _ & Ha) & (_ & _ & Hi) & (_ & _ & Ht)).
  split; [exact Ha|]. split; [exact Hi | exact Ht].
Defined.

Lemma tool_response_witness :
  ready_on ready 0
  ∧ sent (effects_of (sendToolResponse
                        (tool_result [("output", JStr "y"); ("error", JStr "x")]) ready))
    = [(0, tool_envelope [function_response "error" (JStr "x") (JStr "t1")])]
  ∧ sent (effects_of (sendToolResponse (tool_result [("output", JNull)]) ready))
    = [(0, tool_envelope [function_response "output" JNull (JStr "t1")])]
  ∧ sendToolResponse (JObj [("output", JStr "y")]) ready
    = (ready, [], Throw (JsError no_id_message)).
Proof.
  split; [exact ready_is_ready|]. split; [|split].
  - exact (proj1 (proj2 (tool_response_error_comes_first ready 0
                           (tool_result [("output", JStr "y"); ("error", JStr "x")])
                           ready_is_ready) eq_refl) eq_refl).
  - exact (proj1 (proj2 (proj2 (tool_response_error_comes_first ready 0
                                  (tool_result [("output", JNull)]) ready_is_ready)
                           eq_refl))
             eq_refl ltac:(discriminate)).
  - exact (proj1 (tool_response_error_comes_first ready 0 (JObj [("output", JStr "y")])
                    ready_is_ready) eq_refl).
Defined.

Lemma tool_frames_witness :
  truthy (field tool_call_frame "toolCall") = true
  ∧ receive tool_call_frame connecting
    = (connecting, [Console Debug "live received tool call";
                    Emit "tool_call" [AVal (field tool_call_frame "toolCall")]],
       Return tt).
Proof.
  split; [reflexivity|].
  exact (proj1 (tool_frames_are_passed_whole connecting tool_call_frame) eq_refl).
Defined.

Lemma interruption_witness :
  truthy (field interrupted_frame "serverContent") = true
  ∧ receive interrupted_frame ready
    = (ready, [Console Debug "live is interrupted"; Emit "interrupted" []], Return tt).
Proof.
  split; [reflexivity|].
  exact (proj1 (interruption_ends_the_frame ready interrupted_frame
                  eq_refl eq_refl eq_refl eq_refl) eq_refl).
Defined.

Lemma unusable_payloads_witness :
  sockets ready !! 0 = Some (mkSocket "wss://example.test/live?key=K" OPEN 0)
  ∧ perform (WsMessage 0 (Blob (Some JNull))) ready = (ready, [], Return tt)
  ∧ perform (WsMessage 0 (Blob (Some usage_frame))) ready
    = (ready, [Console Debug "live received unmatched message:"], Return tt).
Proof.
  split; [reflexivity|].
  destruct (unusable_payloads_are_dropped (H := browser) ready 0
              (mkSocket "wss://example.test/live?key=K" OPEN 0) usage_frame eq_refl)
    as (_ & _ & Hn & Hu).
  split; [exact Hn|].
  assert (Hr : readable usage_frame) by (split; discriminate).
  rewrite (Hu Hr eq_refl eq_refl eq_refl eq_refl). vm_compute. reflexivity.
Defined.

Lemma mixed_parts_well_formed : Forall well_formed mixed_parts.
Proof. repeat constructor; eexists; reflexivity. Defined.



Lemma emit_tells_witness :
  ("text" ∉ EventEmitter.object_prototype_keys)
  ∧ EventEmitter.emit (EventEmitter.new : gmap string (list (EventEmitter.Listener () (list nat))))
      "text" () [] = ([], [], Return false).
Proof.
  split; [exact text_is_no_inherited_name|].
  exact (proj1 (emit_tells_whether_anyone_ever_listened "text" () [] (logs 0)
                  text_is_no_inherited_name)).
Defined.

Lemma removeListener_witness :
  EventEmitter.read two_listeners "text" = EventEmitter.Own [fails 0; logs 1]
  ∧ ∃ evs', EventEmitter.removeListener two_listeners "text" (fails 0) = Return evs'
            ∧ EventEmitter.read evs' "text" = EventEmitter.Own [logs 1]
            ∧ (0 ∉ (EventEmitter.emit evs' "text" () []).1.2).
Proof.
  assert (Hr : EventEmitter.read two_listeners "text" = EventEmitter.Own [fails 0; logs 1])
    by (vm_compute; reflexivity).
  split; [exact Hr|].
  destruct (removeListener_drops_every_registration two_listeners "text" (fails 0)
              [fails 0; logs 1] () [] Hr) as (evs' & Hrm & Hrd & Hno & _).
  exists evs'. split; [exact Hrm|]. split; [exact Hrd | exact Hno].
Defined.

Lemma on_leaves_other_events_witness :
  EventEmitter.on two_listeners "audio" (logs 2)
  = Return (<["audio" := [logs 2]]> two_listeners)
  ∧ "text" ≠ "audio"
  ∧ EventEmitter.read (<["audio" := [logs 2]]> two_listeners) "text"
    = EventEmitter.read two_listeners "text".
Proof.
  assert (Hon : EventEmitter.on two_listeners "audio" (logs 2)
                = Return (<["audio" := [logs 2]]> two_listeners))
    by (vm_compute; reflexivity).
  split; [exact Hon|]. split; [discriminate|].
  exact (proj1 (on_leaves_other_events_alone two_listeners _ "audio" "text" (logs 2) () []
                  Hon ltac:(discriminate))).
Defined.

Lemma on_does_not_deduplicate_witness :
  ("text" ∉ EventEmitter.object_prototype_keys) ∧ EventEmitter.returns () (logs 0)
  ∧ ∃ evs w', EventEmitter.on_all EventEmitter.new "text" [logs 0; logs 0] = Return evs
              ∧ EventEmitter.emit evs "text" () [] = (w', [0; 0], Return true)
              ∧ ∃ evs', EventEmitter.removeListener evs "text" (logs 0) = Return evs'
                        ∧ EventEmitter.read evs' "text" = EventEmitter.Own [].
Proof.
  split; [exact text_is_no_inherited_name|]. split; [intros w; reflexivity|].
  exact (on_does_not_deduplicate "text" (logs 0) () [] text_is_no_inherited_name
           (fun _ => eq_refl)).
Defined.

Lemma inherited_names_witness :
  "toString" ∈ EventEmitter.object_prototype_keys
  ∧ (EventEmitter.new : gmap string (list (EventEmitter.Listener () (list nat))))
      !! "toString" = None
  ∧ EventEmitter.on EventEmitter.new "toString" (logs 0)
    = Throw (TypeError "this._events[event].push is not a function")
  ∧ EventEmitter.emit (EventEmitter.new : gmap string (list (EventEmitter.Listener () (list nat))))
      "toString" () []
    = ([], [], Throw (TypeError "this._events[event].forEach is not a function")).
Proof.
  assert (Hk : "toString" ∈ EventEmitter.object_prototype_keys).
  { apply (bool_decide_unpack _). vm_compute. exact I. }
  split; [exact Hk|]. split; [reflexivity|].
  destruct (inherited_names_cannot_be_events EventEmitter.new "toString" (logs 0) () []
              Hk eq_refl) as (Hon & Hem & _).
  split; [exact Hon | exact Hem].
Defined.


(** *** The page and its listeners *)

Lemma hears_is_calm n : Listening.calm (hears n).
Proof. intros args w. reflexivity. Defined.

Lemma audience_is_quiet event : Listening.quiet audience event.
Proof.
  intros ls Hl. unfold audience in Hl.
  repeat (apply lookup_insert_Some in Hl as [[_ <-]|[_ Hl]];
          [repeat constructor; apply hears_is_calm|]).
  by rewrite lookup_empty in Hl.
Defined.

Lemma heckled_breaks event : Listening.breaks (heckled event) event (JsError "boom").
Proof.
  exists [hears 7], (chokes 8), [hears 9]. split; [apply lookup_insert_eq|].
  split; [repeat constructor; apply hears_is_calm|]. intros args w. reflexivity.
Defined.


Lemma close_listeners_are_quiet :
  Forall (Listening.quiet audience) ["auth_failed"; "error"; "disconnected"].
Proof. repeat constructor; apply audience_is_quiet. Defined.

Lemma turn_listeners_are_quiet :
  Forall (Listening.quiet audience) ["text"; "audio"; "content"].
Proof. repeat constructor; apply audience_is_quiet. Defined.



Lemma disconnect_settles_no_pending_connect_witness :
  can_connect page "K" "wss://example.test/live?key=K"
  ∧ Listening.quiet audience "error"
  ∧ Forall (Listening.quiet audience) ["auth_failed"; "error"; "disconnected"]
  ∧ Listening.breaks (heckled "error") "error" (JsError "boom")
  ∧ result_of (Listening.connect audience page) = Return (Follows 0)
  ∧ disconnect connecting = (connecting, [], Return tt)
  ∧ state_of (world_of (disconnect connecting)) (Follows 0) = Pending
  ∧ state_of (world_of (Listening.perform audience (WsOpen 0) connecting)) (Follows 0)
    = Fulfilled
  ∧ state_of (world_of (Listening.perform audience (WsError 0 None) connecting)) (Follows 0)
    = Rejected (ErrorEvent None)
  ∧ state_of (world_of (Listening.perform audience
                          (WsClose 0 (mkCloseEvent 1006 "abnormal closure" false))
                          connecting)) (Follows 0)
    = Rejected (JsError (closed_during_connect_message
                           (mkCloseEvent 1006 "abnormal closure" false)))
  ∧ state_of (world_of (Listening.perform (heckled "error") (WsError 0 None) connecting))
      (Follows 0)
    = Pending.
Proof.
  split; [exact page_can_connect|]. split; [apply audience_is_quiet|].
  split; [exact close_listeners_are_quiet|]. split; [apply heckled_breaks|].
  pose proof (fun evs =>
    disconnect_settles_no_pending_connect (H := browser) evs page "K"
      "wss://example.test/live?key=K" None (mkCloseEvent 1006 "abnormal closure" false)
      page_can_connect) as Hall.
  destruct (Hall audience) as (Hr & Hd & Hp & Ho & He & Hc & _).
  destruct (Hall (heckled "error")) as (_ & _ & _ & _ & _ & _ & Hb).
  split; [exact Hr|]. split; [exact Hd|]. split; [exact Hp|]. split; [exact Ho|].
  split; [exact (He (audience_is_quiet "error"))|].
  split; [exact (Hc close_listeners_are_quiet)|].
  exact (proj1 (Hb _ (heckled_breaks "error"))).
Defined.

Lemma failed_attempt_witness :
  can_connect page "K" "wss://example.test/live?key=K"
  ∧ Forall (Listening.quiet audience) ["auth_failed"; "error"; "disconnected"]
  ∧ state_of (world_of (Listening.perform audience (WsError 0 None) connecting)) (Follows 0)
    = Rejected (ErrorEvent None)
  ∧ Listening.connect audience
      (world_of (Listening.perform audience (WsError 0 None) connecting))
    = (world_of (Listening.perform audience (WsError 0 None) connecting), [],
       Return (Follows 0)).
Proof.
  split; [exact page_can_connect|]. split; [exact close_listeners_are_quiet|].
  destruct (failed_attempt_retries_after_close (H := browser) audience page "K"
              "wss://example.test/live?key=K"
              None (mkCloseEvent 1006 "abnormal closure" false) page_can_connect
              close_listeners_are_quiet)
    as (_ & Hs & Hc & _).
  split; [exact Hs | exact Hc].
Defined.

Lemma modelTurn_routing_in_general_witness :
  Forall well_formed mixed_parts
  ∧ Forall (Listening.quiet audience) ["text"; "audio"; "content"]
  ∧ emitted (effects_of (Listening.receive audience (ServerContent mixed_parts) ready))
    = [("text", [AVal (JStr "a")]); ("text", [AVal (JStr "b")]);
       ("audio", [ABuf (String.list_byte_of_string "AAAA")]);
       ("content", [AVal (modelTurn_of [TextPart "a"; TextPart "b"; other_part])])]
  ∧ Listening.breaks (heckled "text") "text" (JsError "boom")
  ∧ texts mixed_parts = [JStr "a"; JStr "b"]
  ∧ Listening.receive (heckled "text") (ServerContent mixed_parts) ready
    = (ready, [Emit "text" [AVal (JStr "a")]], Throw (JsError "boom")).
Proof.
  split; [exact mixed_parts_well_formed|]. split; [exact turn_listeners_are_quiet|].
  destruct (modelTurn_routing_in_general (H := browser) audience ready mixed_parts
              mixed_parts_well_formed) as (Hcalm & _).
  destruct (modelTurn_routing_in_general (H := browser) (heckled "text") ready mixed_parts
              mixed_parts_well_formed) as (_ & Hthrow).
  split; [exact (proj1 (proj2 (Hcalm turn_listeners_are_quiet)))|].
  split; [apply heckled_breaks|]. split; [reflexivity|].
  exact (Hthrow _ (JStr "a") [JStr "b"] (heckled_breaks "text") eq_refl).
Defined.

Lemma credential_reason_witness :
  sockets ready !! 0 = Some (mkSocket "wss://example.test/live?key=K" OPEN 0)
  ∧ alike "ToKeN" "auth" || alike "ToKeN" "token" || alike "ToKeN" "key" = true
  ∧ Listening.quiet audience "auth_failed"
  ∧ events (effects_of
              (Listening.perform audience
                 (WsClose 0 (mkCloseEvent 1011 ("bad " +:+ "ToKeN" +:+ " given") false))
                 ready))
    = ["auth_failed"; "error"]
  ∧ Listening.breaks (heckled "auth_failed") "auth_failed" (JsError "boom")
  ∧ events (effects_of
              (Listening.perform (heckled "auth_failed")
                 (WsClose 0 (mkCloseEvent 1011 ("bad " +:+ "ToKeN" +:+ " given") false))
                 ready))
    = ["auth_failed"].
Proof.
  split; [reflexivity|]. split; [reflexivity|]. split; [apply audience_is_quiet|].
  pose proof (fun evs =>
    reason_naming_a_credential_is_auth_failure (H := browser) evs ready 0
      (mkSocket "wss://example.test/live?key=K" OPEN 0) 1011 "bad " "ToKeN" " given" false
      eq_refl eq_refl) as Hall.
  split; [exact (proj1 (Hall audience) (audience_is_quiet "auth_failed"))|].
  split; [apply heckled_breaks|].
  exact (proj2 (Hall (heckled "auth_failed")) _ (heckled_breaks "auth_failed")).
Defined.

End MoreExamples.
